(** * Timestamp, interval and hash primitives of MEOS ([meos/src/general/pg_call.c])

    A shallow embedding of the overflow-sensitive arithmetic of
    [pg_call.c]: interval addition and comparison, timestamp/interval
    addition and subtraction, precision adjustment of timestamps, and the
    integer and float hash functions.

    C integers are modelled as [Z] with every conversion to a fixed-width
    type written out ([to_int32], [to_int64], ...): signed arithmetic is
    taken to wrap around in two's complement, which is what PostgreSQL
    builds its code for ([-fwrapv]) and what the overflow test of
    [pg_interval_pl], made after the addition, relies on.  C's [/] and [%]
    truncate towards zero and are [Z.quot] and [Z.rem].  [elog(ERROR, msg)]
    does not return; a function that may call it returns a [result]
    carrying the message. *)

From Stdlib Require Import ZArith Lia Bool List String.
From Stdlib Require Import Floats.SpecFloat.
Import ListNotations.

Local Open Scope string_scope.
Local Open Scope Z_scope.

(** ** Fixed-width integers *)

Module CInt.

Definition to_unsigned (w x : Z) : Z := x mod 2 ^ w.
Definition to_signed (w x : Z) : Z := (x + 2 ^ (w - 1)) mod 2 ^ w - 2 ^ (w - 1).

Definition to_int32 := to_signed 32.
Definition to_int64 := to_signed 64.
Definition to_int128 := to_signed 128.
Definition to_uint32 := to_unsigned 32.
Definition to_uint64 := to_unsigned 64.

Definition INT32_MIN : Z := - 2 ^ 31.
Definition INT32_MAX : Z := 2 ^ 31 - 1.
Definition PG_INT64_MIN : Z := - 2 ^ 63.
Definition PG_INT64_MAX : Z := 2 ^ 63 - 1.

Definition in_int32 (x : Z) : Prop := INT32_MIN <= x <= INT32_MAX.
Definition in_int64 (x : Z) : Prop := PG_INT64_MIN <= x <= PG_INT64_MAX.
Definition in_int128 (x : Z) : Prop := - 2 ^ 127 <= x <= 2 ^ 127 - 1.
Definition in_uint32 (x : Z) : Prop := 0 <= x < 2 ^ 32.

End CInt.
Import CInt.

(** ** Results of functions that may [elog(ERROR, ...)] *)

Inductive result (A : Type) : Type :=
| Ok (a : A)
| Error (msg : string).
Arguments Ok {A} a.
Arguments Error {A} msg.

Definition bind {A B : Type} (r : result A) (k : A -> result B) : result B :=
  match r with
  | Ok a => k a
  | Error msg => Error msg
  end.

Notation "x <- r ;; k" := (bind r (fun x => k))
  (at level 61, r at next level, right associativity).

(** ** Intervals *)

(** [struct Interval]: [time] is an [int64] ([TimeOffset]), [day] and
    [month] are [int32]. *)
Record Interval : Type := mkInterval {
  time : Z;
  day : Z;
  month : Z
}.

Definition Interval_wf (i : Interval) : Prop :=
  in_int64 (time i) /\ in_int32 (day i) /\ in_int32 (month i).

(** Constants of PostgreSQL's [datatype/timestamp.h], which [pg_call.c]
    uses through its includes. *)
Definition USECS_PER_DAY : Z := 86400000000.
Definition MONTHS_PER_YEAR : Z := 12.
Definition MAX_TIMESTAMP_PRECISION : Z := 6.
Definition DT_NOBEGIN : Z := PG_INT64_MIN.
Definition DT_NOEND : Z := PG_INT64_MAX.
Definition MIN_TIMESTAMP : Z := -211813488000000000.
Definition END_TIMESTAMP : Z := 9223371331200000000.

Definition TIMESTAMP_NOT_FINITE (j : Z) : bool :=
  (j =? DT_NOBEGIN) || (j =? DT_NOEND).

Definition IS_VALID_TIMESTAMP (t : Z) : bool :=
  (MIN_TIMESTAMP <=? t) && (t <? END_TIMESTAMP).

(** *** [pg_interval_pl] *)

(** [#define SAMESIGN(a,b) (((a) < 0) == ((b) < 0))] *)
Definition SAMESIGN (a b : Z) : bool := Bool.eqb (a <? 0) (b <? 0).

Definition interval_out_of_range : string := "interval out of range".

Definition pg_interval_pl (span1 span2 : Interval) : result Interval :=
  let r_month := to_int32 (month span1 + month span2) in
  if SAMESIGN (month span1) (month span2) && negb (SAMESIGN r_month (month span1))
  then Error interval_out_of_range
  else
    let r_day := to_int32 (day span1 + day span2) in
    if SAMESIGN (day span1) (day span2) && negb (SAMESIGN r_day (day span1))
    then Error interval_out_of_range
    else
      let r_time := to_int64 (time span1 + time span2) in
      if SAMESIGN (time span1) (time span2) && negb (SAMESIGN r_time (time span1))
      then Error interval_out_of_range
      else Ok {| time := r_time; day := r_day; month := r_month |}.

(** The three component sums of two intervals all fit their C types. *)
Definition sums_fit (i1 i2 : Interval) : Prop :=
  in_int32 (month i1 + month i2) /\
  in_int32 (day i1 + day i2) /\
  in_int64 (time i1 + time i2).

(** ** Adding an interval to a timestamp *)

(** [struct pg_tm], restricted to the fields the routines below read or
    write; all of them are C [int]s. *)
Record pg_tm : Type := mk_pg_tm {
  tm_sec : Z;
  tm_min : Z;
  tm_hour : Z;
  tm_mday : Z;
  tm_mon : Z;
  tm_year : Z
}.

(** The date routines of PostgreSQL that [pg_call.c] calls and does not
    define.  [timestamp2tm] and [tm2timestamp] are taken at the way they
    are called here (no time zone: [tzp = NULL]); they return a non-zero
    status on failure, which is [None], and otherwise fill their output
    arguments: the broken-down time and the fractional second for
    [timestamp2tm], the timestamp for [tm2timestamp]. *)
Class DatetimeRoutines : Type := {
  timestamp2tm : Z -> option (pg_tm * Z);
  tm2timestamp : pg_tm -> Z -> option Z;
  date2j : Z -> Z -> Z -> Z;
  j2date : Z -> Z * Z * Z
}.

(** [isleap] and [day_tab] of PostgreSQL's [utils/datetime.h]. *)
Definition isleap (y : Z) : bool :=
  (Z.rem y 4 =? 0) && (negb (Z.rem y 100 =? 0) || (Z.rem y 400 =? 0)).

Definition day_tab (leap : bool) (idx : Z) : Z :=
  nth (Z.to_nat idx)
      (if leap
       then [31; 29; 31; 30; 31; 30; 31; 31; 30; 31; 30; 31; 0]
       else [31; 28; 31; 30; 31; 30; 31; 31; 30; 31; 30; 31; 0])
      0.

Definition timestamp_out_of_range : string := "timestamp out of range".

(** The block guarded by [span->month != 0]: the month is moved, the year
    carried, and the day of the month cut down to the length of the new
    month. *)
Definition tm_add_months (tm : pg_tm) (months : Z) : pg_tm :=
  let mon := to_int32 (tm_mon tm + months) in
  let '(year, mon) :=
    if mon >? MONTHS_PER_YEAR then
      (to_int32 (tm_year tm + Z.quot (to_int32 (mon - 1)) MONTHS_PER_YEAR),
       to_int32 (Z.rem (to_int32 (mon - 1)) MONTHS_PER_YEAR + 1))
    else if mon <? 1 then
      (to_int32 (tm_year tm + to_int32 (Z.quot mon MONTHS_PER_YEAR - 1)),
       to_int32 (Z.rem mon MONTHS_PER_YEAR + MONTHS_PER_YEAR))
    else (tm_year tm, mon) in
  let mday :=
    if tm_mday tm >? day_tab (isleap year) (mon - 1)
    then day_tab (isleap year) (mon - 1)
    else tm_mday tm in
  {| tm_sec := tm_sec tm; tm_min := tm_min tm; tm_hour := tm_hour tm;
     tm_mday := mday; tm_mon := mon; tm_year := year |}.

(** The block guarded by [span->day != 0]: through the Julian day number. *)
Definition tm_add_days `{DatetimeRoutines} (tm : pg_tm) (days : Z) : pg_tm :=
  let julian := to_int32 (date2j (tm_year tm) (tm_mon tm) (tm_mday tm) + days) in
  let '(y, m, d) := j2date julian in
  {| tm_sec := tm_sec tm; tm_min := tm_min tm; tm_hour := tm_hour tm;
     tm_mday := d; tm_mon := m; tm_year := y |}.

Definition pg_timestamp_pl_interval `{DatetimeRoutines}
    (timestamp : Z) (span : Interval) : result Z :=
  if TIMESTAMP_NOT_FINITE timestamp then Ok timestamp
  else
    timestamp <-
      (if negb (month span =? 0) then
         match timestamp2tm timestamp with
         | None => Error timestamp_out_of_range
         | Some (tm, fsec) =>
             match tm2timestamp (tm_add_months tm (month span)) fsec with
             | None => Error timestamp_out_of_range
             | Some t => Ok t
             end
         end
       else Ok timestamp) ;;
    timestamp <-
      (if negb (day span =? 0) then
         match timestamp2tm timestamp with
         | None => Error timestamp_out_of_range
         | Some (tm, fsec) =>
             match tm2timestamp (tm_add_days tm (day span)) fsec with
             | None => Error timestamp_out_of_range
             | Some t => Ok t
             end
         end
       else Ok timestamp) ;;
    let timestamp := to_int64 (timestamp + time span) in
    if negb (IS_VALID_TIMESTAMP timestamp) then Error timestamp_out_of_range
    else Ok timestamp.

Definition pg_timestamp_mi_interval `{DatetimeRoutines}
    (timestamp : Z) (span : Interval) : result Z :=
  let tspan := {| time := to_int64 (- time span);
                  day := to_int32 (- day span);
                  month := to_int32 (- month span) |} in
  pg_timestamp_pl_interval timestamp tspan.

(** ** Subtracting timestamps *)

(** [TMODULO(t,q,u)] of [datatype/timestamp.h]: [q = t / u] and, when [q]
    is not zero, [t -= q * u].  The pair is the new [(t, q)]. *)
Definition TMODULO (t u : Z) : Z * Z :=
  let q := to_int64 (Z.quot t u) in
  if negb (q =? 0) then (to_int64 (t - to_int64 (q * u)), q) else (t, q).

Definition pg_interval_justify_hours (span : Interval) : Interval :=
  let '(r_time, wholeday) := TMODULO (time span) USECS_PER_DAY in
  let r_day := to_int32 (to_int64 (day span + wholeday)) in
  if (r_day >? 0) && (r_time <? 0) then
    {| time := to_int64 (r_time + USECS_PER_DAY);
       day := to_int32 (r_day - 1);
       month := month span |}
  else if (r_day <? 0) && (r_time >? 0) then
    {| time := to_int64 (r_time - USECS_PER_DAY);
       day := to_int32 (r_day + 1);
       month := month span |}
  else {| time := r_time; day := r_day; month := month span |}.

Definition cannot_subtract_infinite : string := "cannot subtract infinite timestamps".

Definition pg_timestamp_mi (dt1 dt2 : Z) : result Interval :=
  if TIMESTAMP_NOT_FINITE dt1 || TIMESTAMP_NOT_FINITE dt2
  then Error cannot_subtract_infinite
  else
    let interval := {| time := to_int64 (dt1 - dt2); day := 0; month := 0 |} in
    Ok (pg_interval_justify_hours interval).

(** ** Comparing intervals *)

Definition interval_cmp_value (interval : Interval) : Z :=
  let dayfraction := Z.rem (time interval) USECS_PER_DAY in
  let days := to_int64 (Z.quot (time interval) USECS_PER_DAY) in
  let days := to_int64 (days + to_int64 (month interval * 30)) in
  let days := to_int64 (days + day interval) in
  let span := to_int128 dayfraction in
  to_int128 (span + to_int128 (to_int128 days * to_int128 USECS_PER_DAY)).

(** [int128_compare] of PostgreSQL's [common/int128.h]. *)
Definition int128_compare (x y : Z) : Z :=
  if x <? y then -1 else if x >? y then 1 else 0.

Definition pg_interval_cmp (interval1 interval2 : Interval) : Z :=
  let span1 := interval_cmp_value interval1 in
  let span2 := interval_cmp_value interval2 in
  int128_compare span1 span2.

(** The linear value the comparison is meant to order by: months of 30
    days, days of 24 hours, in microseconds, as an unbounded integer. *)
Definition interval_linear (i : Interval) : Z :=
  (month i * 30 + day i) * 86400000000 + time i.

Definition Z_of_comparison (c : comparison) : Z :=
  match c with Lt => -1 | Eq => 0 | Gt => 1 end.

(** ** Rounding a timestamp to a precision *)

Definition TimestampScales : list Z :=
  [1000000; 100000; 10000; 1000; 100; 10; 1].

Definition TimestampOffsets : list Z :=
  [500000; 50000; 5000; 500; 50; 5; 0].

Definition precision_error : string :=
  "timestamp(%d) precision must be between %d and %d".

(** [AdjustTimestampForTypmodError(Timestamp *time, int32 typmod, bool *error)].
    [error] is [None] for a [NULL] pointer and [Some b] for a pointer to a
    flag holding [b].  The outcome is the returned [bool], the final
    [*time] and the final [*error]. *)
Definition AdjustTimestampForTypmodError (time : Z) (typmod : Z) (error : option bool)
  : result (bool * Z * option bool) :=
  if negb (TIMESTAMP_NOT_FINITE time)
     && negb (typmod =? -1) && negb (typmod =? MAX_TIMESTAMP_PRECISION)
  then
    if (typmod <? 0) || (typmod >? MAX_TIMESTAMP_PRECISION) then
      match error with
      | Some _ => Ok (false, time, Some true)
      | None => Error precision_error
      end
    else
      let offset := nth (Z.to_nat typmod) TimestampOffsets 0 in
      let scale := nth (Z.to_nat typmod) TimestampScales 0 in
      if time >=? 0 then
        Ok (true,
            to_int64 (to_int64 (Z.quot (to_int64 (time + offset)) scale) * scale),
            error)
      else
        Ok (true,
            to_int64
              (- to_int64
                   (to_int64 (Z.quot (to_int64 (to_int64 (- time) + offset)) scale)
                    * scale)),
            error)
  else Ok (true, time, error).

Definition AdjustTimestampForTypmod (time : Z) (typmod : Z) : result Z :=
  r <- AdjustTimestampForTypmodError time typmod None ;;
  Ok (snd (fst r)).

(** ** Hash functions *)

(** [rot(x,k)] on a [uint32]. *)
Definition rot (x k : Z) : Z :=
  Z.lor (to_uint32 (Z.shiftl x k)) (Z.shiftr x (32 - k)).

(** The [mix] macro, as a function of the three words it updates. *)
Definition mix (abc : Z * Z * Z) : Z * Z * Z :=
  let '(a, b, c) := abc in
  let a := to_uint32 (a - c) in let a := Z.lxor a (rot c 4) in let c := to_uint32 (c + b) in
  let b := to_uint32 (b - a) in let b := Z.lxor b (rot a 6) in let a := to_uint32 (a + c) in
  let c := to_uint32 (c - b) in let c := Z.lxor c (rot b 8) in let b := to_uint32 (b + a) in
  let a := to_uint32 (a - c) in let a := Z.lxor a (rot c 16) in let c := to_uint32 (c + b) in
  let b := to_uint32 (b - a) in let b := Z.lxor b (rot a 19) in let a := to_uint32 (a + c) in
  let c := to_uint32 (c - b) in let c := Z.lxor c (rot b 4) in let b := to_uint32 (b + a) in
  (a, b, c).

(** The [final] macro. *)
Definition final (abc : Z * Z * Z) : Z * Z * Z :=
  let '(a, b, c) := abc in
  let c := Z.lxor c b in let c := to_uint32 (c - rot b 14) in
  let a := Z.lxor a c in let a := to_uint32 (a - rot c 11) in
  let b := Z.lxor b a in let b := to_uint32 (b - rot a 25) in
  let c := Z.lxor c b in let c := to_uint32 (c - rot b 16) in
  let a := Z.lxor a c in let a := to_uint32 (a - rot c 4) in
  let b := Z.lxor b a in let b := to_uint32 (b - rot a 14) in
  let c := Z.lxor c b in let c := to_uint32 (c - rot b 24) in
  (a, b, c).

Definition hash_init : Z := to_uint32 (to_uint32 (0x9e3779b9 + 4) + 3923095).

Definition hash_bytes_uint32 (k : Z) : Z :=
  let a := hash_init in let b := hash_init in let c := hash_init in
  let a := to_uint32 (a + k) in
  let '(_, _, c) := final (a, b, c) in
  c.

Definition hash_bytes_uint32_extended (k seed : Z) : Z :=
  let a := hash_init in let b := hash_init in let c := hash_init in
  let '(a, b, c) :=
    if negb (seed =? 0) then
      let a := to_uint32 (a + to_uint32 (Z.shiftr seed 32)) in
      let b := to_uint32 (b + to_uint32 seed) in
      mix (a, b, c)
    else (a, b, c) in
  let a := to_uint32 (a + k) in
  let '(_, b, c) := final (a, b, c) in
  Z.lor (to_uint64 (Z.shiftl b 32)) c.

(** A [float8] is held as its IEEE-754 binary64 bit pattern, a [uint64]. *)
Definition float8 : Type := Z.

(** The hashing entry points of PostgreSQL's [common/hashfn.h] and the
    canonical NaN of [utils/float.h], which [pg_call.c] calls.  [hash_any]
    receives the bytes it is pointed at. *)
Class HashRoutines : Type := {
  hash_uint32 : Z -> Z;
  hash_uint32_extended : Z -> Z -> Z;
  hash_any : list Z -> Z;
  get_float8_nan : float8
}.

Definition pg_hashint8 `{HashRoutines} (val : Z) : Z :=
  let lohalf := to_uint32 val in
  let hihalf := to_uint32 (Z.shiftr val 32) in
  let lohalf := Z.lxor lohalf (if val >=? 0 then hihalf else to_uint32 (Z.lnot hihalf)) in
  to_uint32 (hash_uint32 lohalf).

Definition pg_hashint8extended `{HashRoutines} (val seed : Z) : Z :=
  let lohalf := to_uint32 val in
  let hihalf := to_uint32 (Z.shiftr val 32) in
  let lohalf := Z.lxor lohalf (if val >=? 0 then hihalf else to_uint32 (Z.lnot hihalf)) in
  hash_uint32_extended lohalf seed.

(** *** Floats *)

Definition float8_sign (x : float8) : bool := Z.testbit x 63.
Definition float8_exponent (x : float8) : Z := Z.land (Z.shiftr x 52) 0x7ff.
Definition float8_fraction (x : float8) : Z := Z.land x 0xfffffffffffff.

(** The value a bit pattern denotes, in the standard library's model of
    IEEE-754 ([prec = 53], [emax = 1024]): subnormals carry the exponent
    [-1074], normal numbers get back their hidden bit. *)
Definition float8_decode (x : float8) : spec_float :=
  let s := float8_sign x in
  let e := float8_exponent x in
  let m := float8_fraction x in
  if e =? 0 then
    if m =? 0 then S754_zero s else S754_finite s (Z.to_pos m) (-1074)
  else if e =? 0x7ff then
    if m =? 0 then S754_infinity s else S754_nan
  else S754_finite s (Z.to_pos (m + 0x10000000000000)) (e - 1075).

(** C's [==] on doubles and [isnan]. *)
Definition float8_eq (x y : float8) : bool := SFeqb (float8_decode x) (float8_decode y).

Definition isnan (x : float8) : bool :=
  match float8_decode x with S754_nan => true | _ => false end.

(** [(float8) 0]. *)
Definition float8_zero : float8 := 0.

(** The [sizeof(key)] bytes at [&key], lowest address first on a
    little-endian machine. *)
Definition float8_bytes (x : float8) : list Z :=
  map (fun i => Z.land (Z.shiftr x (8 * Z.of_nat i)) 0xff) (seq 0 8).

Definition pg_hashfloat8 `{HashRoutines} (key : float8) : Z :=
  if float8_eq key float8_zero then 0
  else
    let key := if isnan key then get_float8_nan else key in
    to_uint32 (hash_any (float8_bytes key)).

(** [hash_any] is PostgreSQL's [hash_bytes] ([common/hashfn.c]), which
    [pg_call.c] does not define; this is its little-endian path, transcribed
    so that [pg_hashfloat8] can be run.  Bytes are taken twelve at a time;
    the last eleven or fewer are added to [a], [b] and [c] with the lowest
    byte of [c] left out, and a byte past the end counts as 0. *)
Definition word_le (k0 k1 k2 k3 : Z) : Z :=
  to_uint32
    (to_uint32 (to_uint32 (k0 + to_uint32 (Z.shiftl k1 8)) + to_uint32 (Z.shiftl k2 16))
     + to_uint32 (Z.shiftl k3 24)).

Fixpoint hash_bytes_from (k : list Z) (a b c : Z) : Z :=
  match k with
  | k0 :: k1 :: k2 :: k3 :: k4 :: k5 :: k6 :: k7 :: k8 :: k9 :: k10 :: k11 :: rest =>
      let '(a, b, c) :=
        mix (to_uint32 (a + word_le k0 k1 k2 k3),
             to_uint32 (b + word_le k4 k5 k6 k7),
             to_uint32 (c + word_le k8 k9 k10 k11)) in
      hash_bytes_from rest a b c
  | _ =>
      let byte i := nth i k 0 in
      let c := to_uint32 (c + word_le 0 (byte 8%nat) (byte 9%nat) (byte 10%nat)) in
      let b := to_uint32 (b + word_le (byte 4%nat) (byte 5%nat) (byte 6%nat) (byte 7%nat)) in
      let a := to_uint32 (a + word_le (byte 0%nat) (byte 1%nat) (byte 2%nat) (byte 3%nat)) in
      let '(_, _, c) := final (a, b, c) in
      c
  end.

Definition hash_bytes (k : list Z) : Z :=
  let len := to_uint32 (Z.of_nat (List.length k)) in
  let init := to_uint32 (to_uint32 (0x9e3779b9 + len) + 3923095) in
  hash_bytes_from k init init init.

(** The bytes of a [uint32] in memory, lowest address first. *)
Definition uint32_bytes (x : Z) : list Z :=
  map (fun i => Z.land (Z.shiftr x (8 * Z.of_nat i)) 0xff) (seq 0 4).

(** The hash routines of [pg_call.c] itself, which stand in for the
    library's before PostgreSQL 13, with [hash_bytes] for [hash_any] and
    the quiet NaN of C's [NAN] for [get_float8_nan]. *)
#[export] Instance pg_call_hash : HashRoutines := {
  hash_uint32 := hash_bytes_uint32;
  hash_uint32_extended := hash_bytes_uint32_extended;
  hash_any := hash_bytes;
  get_float8_nan := 0x7ff8000000000000
}.

(** ** PostgreSQL's date routines

    The routines of PostgreSQL 14 ([utils/adt/datetime.c] and
    [utils/adt/timestamp.c]) behind [DatetimeRoutines], transcribed so that
    [pg_timestamp_pl_interval] can be run on dates.  The theorems about
    [pg_timestamp_pl_interval] that do not name [pg_datetime] hold for
    every implementation of the class. *)

Module PG.

Definition POSTGRES_EPOCH_JDATE : Z := 2451545.
Definition INT_MAX : Z := 2147483647.
Definition USECS_PER_HOUR : Z := 3600000000.
Definition USECS_PER_MINUTE : Z := 60000000.
Definition USECS_PER_SEC : Z := 1000000.
Definition MINS_PER_HOUR : Z := 60.
Definition SECS_PER_MINUTE : Z := 60.

Definition JULIAN_MINYEAR : Z := -4713.
Definition JULIAN_MINMONTH : Z := 11.
Definition JULIAN_MAXYEAR : Z := 5874898.
Definition JULIAN_MAXMONTH : Z := 6.

Definition IS_VALID_JULIAN (y m d : Z) : bool :=
  ((y >? JULIAN_MINYEAR) || ((y =? JULIAN_MINYEAR) && (m >=? JULIAN_MINMONTH)))
  && ((y <? JULIAN_MAXYEAR) || ((y =? JULIAN_MAXYEAR) && (m <? JULIAN_MAXMONTH))).

Definition date2j (y m d : Z) : Z :=
  let '(m, y) :=
    if m >? 2 then (to_int32 (m + 1), to_int32 (y + 4800))
    else (to_int32 (m + 13), to_int32 (y + 4799)) in
  let century := Z.quot y 100 in
  let julian := to_int32 (to_int32 (y * 365) - 32167) in
  let julian :=
    to_int32 (julian + to_int32 (to_int32 (Z.quot y 4 - century) + Z.quot century 4)) in
  to_int32 (julian + to_int32 (Z.quot (to_int32 (7834 * m)) 256 + d)).

(** [julian], [quad] and [extra] are [unsigned int]. *)
Definition j2date (jd : Z) : Z * Z * Z :=
  let julian := to_uint32 jd in
  let julian := to_uint32 (julian + 32044) in
  let quad := julian / 146097 in
  let extra := to_uint32 (to_uint32 (to_uint32 (julian - to_uint32 (quad * 146097)) * 4) + 3) in
  let julian :=
    to_uint32 (julian + to_uint32 (to_uint32 (60 + to_uint32 (quad * 3)) + extra / 146097)) in
  let quad := julian / 1461 in
  let julian := to_uint32 (julian - to_uint32 (quad * 1461)) in
  let y := to_int32 (to_uint32 (julian * 4) / 1461) in
  let julian :=
    to_uint32 ((if negb (y =? 0)
                then to_uint32 (julian + 305) mod 365
                else to_uint32 (julian + 306) mod 366) + 123) in
  let y := to_int32 (to_uint32 (to_uint32 y + to_uint32 (quad * 4))) in
  let year := to_int32 (y - 4800) in
  let quad := to_uint32 (julian * 2141) / 65536 in
  let day := to_int32 (to_uint32 (julian - to_uint32 (7834 * quad) / 256)) in
  let month := to_int32 (to_uint32 (quad + 10) mod MONTHS_PER_YEAR + 1) in
  (year, month, day).

Definition dt2time (jd : Z) : Z * Z * Z * Z :=
  let time := jd in
  let hour := to_int32 (Z.quot time USECS_PER_HOUR) in
  let time := to_int64 (time - to_int64 (hour * USECS_PER_HOUR)) in
  let min := to_int32 (Z.quot time USECS_PER_MINUTE) in
  let time := to_int64 (time - to_int64 (min * USECS_PER_MINUTE)) in
  let sec := to_int32 (Z.quot time USECS_PER_SEC) in
  let fsec := to_int32 (to_int64 (time - to_int64 (sec * USECS_PER_SEC))) in
  (hour, min, sec, fsec).

Definition time2t (hour min sec fsec : Z) : Z :=
  to_int64
    (to_int64
       (to_int64 (to_int32 (to_int32 (to_int32 (hour * MINS_PER_HOUR) + min)
                            * SECS_PER_MINUTE) + sec)
        * USECS_PER_SEC)
     + fsec).

Definition timestamp2tm (dt : Z) : option (pg_tm * Z) :=
  let '(time, date) := TMODULO dt USECS_PER_DAY in
  let '(time, date) :=
    if time <? 0 then (to_int64 (time + USECS_PER_DAY), to_int64 (date - 1))
    else (time, date) in
  let date := to_int64 (date + POSTGRES_EPOCH_JDATE) in
  if (date <? 0) || (date >? INT_MAX) then None
  else
    let '(y, m, d) := j2date (to_int32 date) in
    let '(hour, min, sec, fsec) := dt2time time in
    Some ({| tm_sec := sec; tm_min := min; tm_hour := hour;
             tm_mday := d; tm_mon := m; tm_year := y |}, fsec).

Definition tm2timestamp (tm : pg_tm) (fsec : Z) : option Z :=
  if negb (IS_VALID_JULIAN (tm_year tm) (tm_mon tm) (tm_mday tm)) then None
  else
    let date := to_int32 (date2j (tm_year tm) (tm_mon tm) (tm_mday tm) - POSTGRES_EPOCH_JDATE) in
    let time := time2t (tm_hour tm) (tm_min tm) (tm_sec tm) fsec in
    let result := to_int64 (to_int64 (date * USECS_PER_DAY) + time) in
    if negb (Z.quot (to_int64 (result - time)) USECS_PER_DAY =? date) then None
    else if ((result <? 0) && (date >? 0)) || ((result >? 0) && (date <? -1)) then None
    else if negb (IS_VALID_TIMESTAMP result) then None
    else Some result.

End PG.

#[export] Instance pg_datetime : DatetimeRoutines := {
  timestamp2tm := PG.timestamp2tm;
  tm2timestamp := PG.tm2timestamp;
  date2j := PG.date2j;
  j2date := PG.j2date
}.

(** ** Index support ([src/general/temporal_supportfn.c]) *)

(** [enum TEMPORAL_FUNCTION_IDX]. *)
Definition INTERSECTS_TIMESTAMP_IDX : Z := 0.
Definition INTERSECTS_TIMESTAMPSET_IDX : Z := 1.
Definition INTERSECTS_PERIOD_IDX : Z := 2.
Definition INTERSECTS_PERIODSET_IDX : Z := 3.
Definition EVER_EQ_IDX : Z := 4.
Definition ALWAYS_EQ_IDX : Z := 5.
Definition CONTAINS_IDX : Z := 6.
Definition DISJOINT_IDX : Z := 7.
Definition INTERSECTS_IDX : Z := 8.
Definition TOUCHES_IDX : Z := 9.
Definition DWITHIN_IDX : Z := 10.

(** Strategy numbers of PostgreSQL's [access/stratnum.h]. *)
Definition InvalidStrategy : Z := 0.
Definition RTOverlapStrategyNumber : Z := 3.

(** The strategy arrays.  Their initializers are designated: an index that
    is not named holds 0, and the array ends at the largest index named. *)
Definition TemporalStrategies : list Z :=
  [RTOverlapStrategyNumber; RTOverlapStrategyNumber; RTOverlapStrategyNumber;
   RTOverlapStrategyNumber].

Definition TNumberStrategies : list Z :=
  [RTOverlapStrategyNumber; RTOverlapStrategyNumber; RTOverlapStrategyNumber;
   RTOverlapStrategyNumber; RTOverlapStrategyNumber; RTOverlapStrategyNumber].

Definition TPointStrategies : list Z :=
  [RTOverlapStrategyNumber; RTOverlapStrategyNumber; RTOverlapStrategyNumber;
   RTOverlapStrategyNumber; RTOverlapStrategyNumber; RTOverlapStrategyNumber;
   RTOverlapStrategyNumber; RTOverlapStrategyNumber; RTOverlapStrategyNumber;
   RTOverlapStrategyNumber; RTOverlapStrategyNumber].

Definition TNPointStrategies : list Z :=
  [RTOverlapStrategyNumber; RTOverlapStrategyNumber; RTOverlapStrategyNumber;
   RTOverlapStrategyNumber; 0; 0;
   RTOverlapStrategyNumber; RTOverlapStrategyNumber; RTOverlapStrategyNumber;
   RTOverlapStrategyNumber; RTOverlapStrategyNumber].

(** [struct IndexableFunction], in the order of its initializers: the
    name ([NULL] is [None]), the index into the strategy arrays, the number
    of arguments and the position of the argument to expand by. *)
Record IndexableFunction : Type := mkIndexableFunction {
  fn_name : option string;
  index : Z;
  nargs : Z;
  expand_arg : Z
}.

Definition idxfn (name : string) (idx n e : Z) : IndexableFunction :=
  {| fn_name := Some name; index := idx; nargs := n; expand_arg := e |}.

Definition idxfn_end : IndexableFunction :=
  {| fn_name := None; index := 0; nargs := 0; expand_arg := 0 |}.

Definition TemporalIndexableFunctions : list IndexableFunction :=
  [idxfn "intersectstimestamp" INTERSECTS_TIMESTAMP_IDX 2 0;
   idxfn "intersectstimestampset" INTERSECTS_TIMESTAMPSET_IDX 2 0;
   idxfn "intersectsperiod" INTERSECTS_PERIOD_IDX 2 0;
   idxfn "intersectsperiodset" INTERSECTS_PERIODSET_IDX 2 0;
   idxfn_end].

Definition TNumberIndexableFunctions : list IndexableFunction :=
  [idxfn "intersectstimestamp" INTERSECTS_TIMESTAMP_IDX 2 0;
   idxfn "intersectstimestampset" INTERSECTS_TIMESTAMPSET_IDX 2 0;
   idxfn "intersectsperiod" INTERSECTS_PERIOD_IDX 2 0;
   idxfn "intersectsperiodset" INTERSECTS_PERIODSET_IDX 2 0;
   idxfn "ever_eq" EVER_EQ_IDX 2 0;
   idxfn "always_eq" ALWAYS_EQ_IDX 2 0;
   idxfn_end].

Definition TPointIndexableFunctions : list IndexableFunction :=
  [idxfn "ever_eq" EVER_EQ_IDX 2 0;
   idxfn "always_eq" ALWAYS_EQ_IDX 2 0;
   idxfn "intersectstimestamp" INTERSECTS_TIMESTAMP_IDX 2 0;
   idxfn "intersectstimestampset" INTERSECTS_TIMESTAMPSET_IDX 2 0;
   idxfn "intersectsperiod" INTERSECTS_PERIOD_IDX 2 0;
   idxfn "intersectsperiodset" INTERSECTS_PERIODSET_IDX 2 0;
   idxfn "contains" CONTAINS_IDX 2 0;
   idxfn "disjoint" DISJOINT_IDX 2 0;
   idxfn "intersects" INTERSECTS_IDX 2 0;
   idxfn "touches" TOUCHES_IDX 2 0;
   idxfn "dwithin" DWITHIN_IDX 3 3;
   idxfn_end].

Definition TNPointIndexableFunctions : list IndexableFunction :=
  [idxfn "intersectstimestamp" INTERSECTS_TIMESTAMP_IDX 2 0;
   idxfn "intersectstimestampset" INTERSECTS_TIMESTAMPSET_IDX 2 0;
   idxfn "intersectsperiod" INTERSECTS_PERIOD_IDX 2 0;
   idxfn "intersectsperiodset" INTERSECTS_PERIODSET_IDX 2 0;
   idxfn "contains" CONTAINS_IDX 2 0;
   idxfn "disjoint" DISJOINT_IDX 2 0;
   idxfn "intersects" INTERSECTS_IDX 2 0;
   idxfn "touches" TOUCHES_IDX 2 0;
   idxfn "dwithin" DWITHIN_IDX 3 3;
   idxfn_end].

(** The type tests of the catalog cache that [temporal_get_strategy_by_type]
    calls, and the Oid that [type_oid(T_TNPOINT)] returns. *)
Class TypeCatalog : Type := {
  talpha_type : Z -> bool;
  tnumber_type : Z -> bool;
  tgeo_type : Z -> bool;
  T_TNPOINT_oid : Z
}.

(** A read past the end of a strategy array has no defined value: [None]. *)
Definition temporal_get_strategy_by_type `{TypeCatalog} (type : Z) (idx : Z)
  : option Z :=
  if talpha_type type then nth_error TemporalStrategies (Z.to_nat idx)
  else if tnumber_type type then nth_error TNumberStrategies (Z.to_nat idx)
  else if tgeo_type type then nth_error TPointStrategies (Z.to_nat idx)
  else if type =? T_TNPOINT_oid then nth_error TNPointStrategies (Z.to_nat idx)
  else Some InvalidStrategy.

(** [func_needs_index], on the name that [get_func_name(funcid)] returned.
    The array is walked by a [do ... while (idxfns->fn_name)] loop: the
    entry under the pointer is compared first, whatever it is, and the loop
    goes on while the next entry has a name.  [Some (Some e)] is [true] with
    [*result = e], [Some None] is [false]; [None] is [strcmp] on a [NULL]
    name or a read past the end of the array. *)
Fixpoint func_needs_index (name : string) (idxfns : list IndexableFunction)
  : option (option IndexableFunction) :=
  match idxfns with
  | [] => None
  | e :: rest =>
      match fn_name e with
      | None => None
      | Some n =>
          if String.eqb n name then Some (Some e)
          else
            match rest with
            | [] => None
            | next :: _ =>
                match fn_name next with
                | None => Some None
                | Some _ => func_needs_index name rest
                end
            end
      end
  end.

(** [enum TemporalFamily] and the array [temporal_supportfn_internal]
    searches for each of its values. *)
Inductive TemporalFamily : Type :=
| TEMPORALTYPE
| TNUMBERTYPE
| TPOINTTYPE
| TNPOINTTYPE.

Definition funcarr (tempfamily : TemporalFamily) : list IndexableFunction :=
  match tempfamily with
  | TEMPORALTYPE => TemporalIndexableFunctions
  | TNUMBERTYPE => TNumberIndexableFunctions
  | TPOINTTYPE => TPointIndexableFunctions
  | TNPOINTTYPE => TNPointIndexableFunctions
  end.

(** ** Vocabulary of the statements *)

(** The two reserved timestamps, [-infinity] and [infinity]. *)
Definition is_sentinel (t : Z) : Prop := t = DT_NOBEGIN \/ t = DT_NOEND.

(** [r] is [t] rounded to a multiple of [scale], halves away from zero. *)
Definition rounds_half_away (scale t r : Z) : Prop :=
  (scale | r) /\
  2 * Z.abs (r - t) <= scale /\
  (2 * Z.abs (r - t) = scale -> Z.abs t < Z.abs r).

(** The arithmetic of [AdjustTimestampForTypmodError] for an offset [o] and a
    scale [s], as written in its two branches. *)
Definition adjust_arith (o s t : Z) : Z :=
  if t >=? 0 then
    to_int64 (to_int64 (Z.quot (to_int64 (t + o)) s) * s)
  else
    to_int64 (- to_int64 (to_int64 (Z.quot (to_int64 (to_int64 (- t) + o)) s) * s)).

(** The bit patterns of a [uint64]. *)
Definition is_float8 (x : float8) : Prop := 0 <= x < 2 ^ 64.

(** The interval of no length. *)
Definition interval_zero : Interval := {| time := 0; day := 0; month := 0 |}.

(** An array of named entries closed by one entry without a name. *)
Definition terminated_table (named : list IndexableFunction) (table : list IndexableFunction)
  : Prop :=
  named <> [] /\
  Forall (fun e => fn_name e <> None) named /\
  exists last, fn_name last = None /\ table = (named ++ [last])%list.

(** The first entry of a list that carries a given name. *)
Fixpoint first_named (name : string) (l : list IndexableFunction)
  : option IndexableFunction :=
  match l with
  | [] => None
  | e :: rest =>
      match fn_name e with
      | Some n => if String.eqb n name then Some e else first_named name rest
      | None => first_named name rest
      end
  end.

(** The types for which [temporal_get_strategy_by_type] reads the strategy
    array of a family. *)
Definition type_of_family `{TypeCatalog} (tempfamily : TemporalFamily) (type : Z) : Prop :=
  match tempfamily with
  | TEMPORALTYPE => talpha_type type = true
  | TNUMBERTYPE => talpha_type type = false /\ tnumber_type type = true
  | TPOINTTYPE =>
      talpha_type type = false /\ tnumber_type type = false /\ tgeo_type type = true
  | TNPOINTTYPE =>
      talpha_type type = false /\ tnumber_type type = false /\ tgeo_type type = false
      /\ type = T_TNPOINT_oid
  end.

(** ** Lemmas on fixed-width integers *)

Lemma to_signed_id w x :
  0 < w -> - 2 ^ (w - 1) <= x < 2 ^ (w - 1) -> to_signed w x = x.
Proof.
  intros Hw Hx. unfold to_signed.
  assert (E : 2 ^ w = 2 * 2 ^ (w - 1)).
  { replace w with (Z.succ (w - 1)) at 1 by lia. apply Z.pow_succ_r. lia. }
  rewrite Z.mod_small; lia.
Qed.

Lemma to_int32_id x : in_int32 x -> to_int32 x = x.
Proof.
  unfold in_int32, INT32_MIN, INT32_MAX. intros H.
  apply to_signed_id; simpl Z.sub; lia.
Qed.

Lemma to_int64_id x : in_int64 x -> to_int64 x = x.
Proof.
  unfold in_int64, PG_INT64_MIN, PG_INT64_MAX. intros H.
  apply to_signed_id; simpl Z.sub; lia.
Qed.

Lemma to_int128_id x : in_int128 x -> to_int128 x = x.
Proof.
  unfold in_int128. intros H.
  apply to_signed_id; simpl Z.sub; lia.
Qed.

(** One wrap upwards: a sum that exceeds the type by less than its width. *)
Lemma to_signed_high w x :
  0 < w -> 2 ^ (w - 1) <= x < 2 ^ w + 2 ^ (w - 1) -> to_signed w x = x - 2 ^ w.
Proof.
  intros Hw Hx. unfold to_signed.
  assert (E : 2 ^ w = 2 * 2 ^ (w - 1)).
  { replace w with (Z.succ (w - 1)) at 1 by lia. apply Z.pow_succ_r. lia. }
  replace (x + 2 ^ (w - 1)) with ((x - 2 ^ (w - 1)) + 1 * 2 ^ w) by lia.
  rewrite Z.mod_add by lia. rewrite Z.mod_small; lia.
Qed.

Lemma to_signed_low w x :
  0 < w -> - 2 ^ w - 2 ^ (w - 1) <= x < - 2 ^ (w - 1) -> to_signed w x = x + 2 ^ w.
Proof.
  intros Hw Hx. unfold to_signed.
  assert (E : 2 ^ w = 2 * 2 ^ (w - 1)).
  { replace w with (Z.succ (w - 1)) at 1 by lia. apply Z.pow_succ_r. lia. }
  replace (x + 2 ^ (w - 1)) with ((x + 2 ^ w + 2 ^ (w - 1)) + (-1) * 2 ^ w) by lia.
  rewrite Z.mod_add by lia. rewrite Z.mod_small; lia.
Qed.

(** The same-sign test of [int4pl] detects exactly the overflow of a
    two's-complement addition. *)
Lemma samesign_check_signed w a b :
  0 < w ->
  - 2 ^ (w - 1) <= a < 2 ^ (w - 1) ->
  - 2 ^ (w - 1) <= b < 2 ^ (w - 1) ->
  SAMESIGN a b && negb (SAMESIGN (to_signed w (a + b)) a) = true
  <-> ~ (- 2 ^ (w - 1) <= a + b < 2 ^ (w - 1)).
Proof.
  intros Hw Ha Hb.
  assert (E : 2 ^ w = 2 * 2 ^ (w - 1)).
  { replace w with (Z.succ (w - 1)) at 1 by lia. apply Z.pow_succ_r. lia. }
  assert (C : - 2 ^ (w - 1) <= a + b < 2 ^ (w - 1)
              \/ 2 ^ (w - 1) <= a + b < 2 ^ w + 2 ^ (w - 1)
              \/ - 2 ^ w - 2 ^ (w - 1) <= a + b < - 2 ^ (w - 1)) by lia.
  unfold SAMESIGN.
  destruct C as [C | [C | C]].
  - rewrite (to_signed_id w (a + b)) by assumption.
    destruct (Z.ltb_spec a 0), (Z.ltb_spec b 0), (Z.ltb_spec (a + b) 0);
      simpl; split; intros; try discriminate; try lia.
  - rewrite (to_signed_high w (a + b)) by assumption.
    destruct (Z.ltb_spec a 0), (Z.ltb_spec b 0), (Z.ltb_spec (a + b - 2 ^ w) 0);
      simpl; split; intros; try discriminate; try lia; reflexivity.
  - rewrite (to_signed_low w (a + b)) by assumption.
    destruct (Z.ltb_spec a 0), (Z.ltb_spec b 0), (Z.ltb_spec (a + b + 2 ^ w) 0);
      simpl; split; intros; try discriminate; try lia; reflexivity.
Qed.

Lemma samesign_check_int32 a b :
  in_int32 a -> in_int32 b ->
  SAMESIGN a b && negb (SAMESIGN (to_int32 (a + b)) a) = true <-> ~ in_int32 (a + b).
Proof.
  unfold in_int32, INT32_MIN, INT32_MAX. intros Ha Hb.
  pose proof (samesign_check_signed 32 a b) as H. simpl Z.sub in H.
  unfold to_int32. rewrite H by lia. lia.
Qed.

Lemma samesign_check_int64 a b :
  in_int64 a -> in_int64 b ->
  SAMESIGN a b && negb (SAMESIGN (to_int64 (a + b)) a) = true <-> ~ in_int64 (a + b).
Proof.
  unfold in_int64, PG_INT64_MIN, PG_INT64_MAX. intros Ha Hb.
  pose proof (samesign_check_signed 64 a b) as H. simpl Z.sub in H.
  unfold to_int64. rewrite H by lia. lia.
Qed.

Lemma samesign_pass_int32 a b :
  in_int32 a -> in_int32 b ->
  SAMESIGN a b && negb (SAMESIGN (to_int32 (a + b)) a) = false -> in_int32 (a + b).
Proof.
  intros Ha Hb E. pose proof (samesign_check_int32 a b Ha Hb) as C.
  rewrite E in C. unfold in_int32 in *.
  destruct (Z_le_dec INT32_MIN (a + b)); destruct (Z_le_dec (a + b) INT32_MAX);
    try lia; exfalso; assert (X : false = true) by (apply C; lia); discriminate X.
Qed.

Lemma samesign_pass_int64 a b :
  in_int64 a -> in_int64 b ->
  SAMESIGN a b && negb (SAMESIGN (to_int64 (a + b)) a) = false -> in_int64 (a + b).
Proof.
  intros Ha Hb E. pose proof (samesign_check_int64 a b Ha Hb) as C.
  rewrite E in C. unfold in_int64 in *.
  destruct (Z_le_dec PG_INT64_MIN (a + b)); destruct (Z_le_dec (a + b) PG_INT64_MAX);
    try lia; exfalso; assert (X : false = true) by (apply C; lia); discriminate X.
Qed.

(** ** Truncating division *)

(** C's [/] and [%] by a positive divisor: the remainder has the sign of
    the dividend and is smaller than the divisor in magnitude. *)
Lemma quot_rem_trunc (a b : Z) :
  0 < b ->
  a = b * Z.quot a b + Z.rem a b /\
  ((0 <= a /\ 0 <= Z.rem a b < b /\ 0 <= Z.quot a b) \/
   (a < 0 /\ - b < Z.rem a b <= 0 /\ Z.quot a b <= 0)).
Proof.
  intros Hb. split; [apply Z.quot_rem'|].
  destruct (Z_lt_le_dec a 0) as [Hn | Hp].
  - right. split; [assumption|].
    replace a with (- (- a)) by lia.
    rewrite Z.rem_opp_l, Z.quot_opp_l by lia.
    pose proof (Z.rem_bound_pos (- a) b ltac:(lia) Hb).
    pose proof (Z.quot_pos (- a) b ltac:(lia) Hb). lia.
  - left. split; [assumption|].
    pose proof (Z.rem_bound_pos a b Hp Hb).
    pose proof (Z.quot_pos a b Hp Hb). lia.
Qed.

(** ** Interval addition *)

(** C7. For intervals whose fields are in the ranges of their C types,
    [pg_interval_pl] returns the component-wise sums when each mathematical
    sum fits its type (32 bits for [month] and [day], 64 bits for [time]),
    and raises "interval out of range" exactly when some sum does not. *)
Theorem pg_interval_pl_componentwise (i1 i2 : Interval) :
  Interval_wf i1 -> Interval_wf i2 ->
  (sums_fit i1 i2 ->
     pg_interval_pl i1 i2 =
       Ok {| time := time i1 + time i2;
             day := day i1 + day i2;
             month := month i1 + month i2 |})
  /\ (~ sums_fit i1 i2 -> pg_interval_pl i1 i2 = Error "interval out of range")
  /\ (forall msg, pg_interval_pl i1 i2 = Error msg -> ~ sums_fit i1 i2).
Proof.
  intros (Ht1 & Hd1 & Hm1) (Ht2 & Hd2 & Hm2).
  unfold pg_interval_pl, sums_fit.
  destruct (SAMESIGN (month i1) (month i2) &&
            negb (SAMESIGN (to_int32 (month i1 + month i2)) (month i1))) eqn:Em.
  { apply (samesign_check_int32 _ _ Hm1 Hm2) in Em.
    repeat split; intros; try tauto. }
  pose proof (samesign_pass_int32 _ _ Hm1 Hm2 Em) as Fm.
  destruct (SAMESIGN (day i1) (day i2) &&
            negb (SAMESIGN (to_int32 (day i1 + day i2)) (day i1))) eqn:Ed.
  { apply (samesign_check_int32 _ _ Hd1 Hd2) in Ed.
    repeat split; intros; try tauto. }
  pose proof (samesign_pass_int32 _ _ Hd1 Hd2 Ed) as Fd.
  destruct (SAMESIGN (time i1) (time i2) &&
            negb (SAMESIGN (to_int64 (time i1 + time i2)) (time i1))) eqn:Et.
  { apply (samesign_check_int64 _ _ Ht1 Ht2) in Et.
    repeat split; intros; try tauto. }
  pose proof (samesign_pass_int64 _ _ Ht1 Ht2 Et) as Ft.
  rewrite (to_int32_id _ Fm), (to_int32_id _ Fd), (to_int64_id _ Ft).
  repeat split; intros; try tauto; try discriminate.
Qed.

Lemma pg_interval_pl_componentwise_witness :
  pg_interval_pl {| time := 86399999999; day := -40; month := 11 |}
                 {| time := 2; day := 15; month := 3 |}
  = Ok {| time := 86400000001; day := -25; month := 14 |}.
Proof.
  apply (pg_interval_pl_componentwise
           {| time := 86399999999; day := -40; month := 11 |}
           {| time := 2; day := 15; month := 3 |});
    unfold sums_fit, Interval_wf, in_int64, in_int32, PG_INT64_MIN, PG_INT64_MAX,
      INT32_MIN, INT32_MAX; simpl; lia.
Defined.

(** ** Sentinels *)

Lemma TIMESTAMP_NOT_FINITE_true t : TIMESTAMP_NOT_FINITE t = true <-> is_sentinel t.
Proof.
  unfold TIMESTAMP_NOT_FINITE, is_sentinel.
  rewrite orb_true_iff, !Z.eqb_eq. reflexivity.
Qed.

Lemma TIMESTAMP_NOT_FINITE_false t : TIMESTAMP_NOT_FINITE t = false <-> ~ is_sentinel t.
Proof.
  rewrite <- TIMESTAMP_NOT_FINITE_true.
  destruct (TIMESTAMP_NOT_FINITE t); split; intros E; try reflexivity;
    try discriminate E; try (intros X; discriminate X).
  exfalso; apply E; reflexivity.
Qed.

Lemma valid_timestamp_finite t : IS_VALID_TIMESTAMP t = true -> ~ is_sentinel t.
Proof.
  unfold IS_VALID_TIMESTAMP, is_sentinel, DT_NOBEGIN, DT_NOEND, MIN_TIMESTAMP,
    END_TIMESTAMP, PG_INT64_MIN, PG_INT64_MAX.
  rewrite andb_true_iff, Z.leb_le, Z.ltb_lt. lia.
Qed.

(** ** Timestamp plus interval *)

(** C5. A sentinel timestamp goes through [pg_timestamp_pl_interval]
    unchanged and without error, whatever the interval and whatever the
    date routines do. *)
Theorem pg_timestamp_pl_interval_sentinel `{DatetimeRoutines} (t : Z) (i : Interval) :
  is_sentinel t -> pg_timestamp_pl_interval t i = Ok t.
Proof.
  intros Hs. apply TIMESTAMP_NOT_FINITE_true in Hs.
  unfold pg_timestamp_pl_interval. rewrite Hs. reflexivity.
Qed.

Lemma pg_timestamp_pl_interval_sentinel_witness :
  is_sentinel DT_NOEND /\
  pg_timestamp_pl_interval DT_NOEND {| time := 7; day := -3; month := 14 |} = Ok DT_NOEND.
Proof.
  split.
  - right; reflexivity.
  - apply (pg_timestamp_pl_interval_sentinel DT_NOEND). right; reflexivity.
Defined.

(** With no months and no days, only the last two statements of the
    function run: the 64-bit addition and the range test on its result. *)
Lemma pg_timestamp_pl_interval_time_only `{DatetimeRoutines} (t us : Z) :
  ~ is_sentinel t ->
  pg_timestamp_pl_interval t {| time := us; day := 0; month := 0 |} =
    if IS_VALID_TIMESTAMP (to_int64 (t + us)) then Ok (to_int64 (t + us))
    else Error "timestamp out of range".
Proof.
  intros Hf. apply TIMESTAMP_NOT_FINITE_false in Hf.
  unfold pg_timestamp_pl_interval. rewrite Hf. simpl.
  destruct (IS_VALID_TIMESTAMP (to_int64 (t + us))); reflexivity.
Qed.

(** As long as the 64-bit sum does not wrap, the range test is exact: the
    sum is returned when it is a valid timestamp and refused otherwise. *)
Lemma pg_timestamp_pl_interval_time_exact `{DatetimeRoutines} (t us : Z) :
  ~ is_sentinel t -> in_int64 (t + us) ->
  pg_timestamp_pl_interval t {| time := us; day := 0; month := 0 |} =
    if IS_VALID_TIMESTAMP (t + us) then Ok (t + us)
    else Error "timestamp out of range".
Proof.
  intros Hf Hs. rewrite (pg_timestamp_pl_interval_time_only t us Hf).
  rewrite (to_int64_id _ Hs). reflexivity.
Qed.

(** The month step is calendar arithmetic: counted in months since year
    0, the date moves by exactly [months]; the month stays within 1..12 and
    the day of the month is cut down to the length of the new month. *)
Lemma tm_add_months_calendar (tm : pg_tm) (months : Z) :
  1 <= tm_mon tm <= 12 ->
  in_int32 months ->
  in_int32 (tm_mon tm + months) ->
  - 2 ^ 30 <= tm_year tm <= 2 ^ 30 ->
  let r := tm_add_months tm months in
  1 <= tm_mon r <= 12 /\
  tm_year r * 12 + (tm_mon r - 1) = tm_year tm * 12 + (tm_mon tm - 1) + months /\
  tm_mday r = Z.min (tm_mday tm) (day_tab (isleap (tm_year r)) (tm_mon r - 1)).
Proof.
  intros Hmon Hm Hsum Hy. cbv zeta. unfold tm_add_months.
  rewrite (to_int32_id _ Hsum).
  unfold in_int32, INT32_MIN, INT32_MAX, MONTHS_PER_YEAR in *.
  set (mon := tm_mon tm + months) in *.
  assert (B32 : forall x, - 2 ^ 31 <= x <= 2 ^ 31 - 1 -> to_int32 x = x)
    by (intros; apply to_int32_id; unfold in_int32, INT32_MIN, INT32_MAX; lia).
  assert (Clamp : forall y m d,
            (if d >? day_tab (isleap y) m then day_tab (isleap y) m else d)
            = Z.min d (day_tab (isleap y) m)).
  { intros y m d. destruct (Z.gtb_spec d (day_tab (isleap y) m)); lia. }
  destruct (Z.gtb_spec mon 12) as [Hgt | Hle].
  - destruct (quot_rem_trunc (mon - 1) 12) as [Hqr Hs]; [lia|].
    rewrite (B32 (mon - 1)) by lia.
    set (q := Z.quot (mon - 1) 12) in *. set (r := Z.rem (mon - 1) 12) in *.
    rewrite (B32 (tm_year tm + q)), (B32 (r + 1)) by lia.
    cbn [tm_mon tm_year tm_mday]. rewrite Clamp. repeat split; lia.
  - destruct (Z.ltb_spec mon 1) as [Hlt | Hge].
    + destruct (quot_rem_trunc mon 12) as [Hqr Hs]; [lia|].
      set (q := Z.quot mon 12) in *. set (r := Z.rem mon 12) in *.
      rewrite (B32 (q - 1)), (B32 (r + 12)) by lia.
      rewrite (B32 (tm_year tm + (q - 1))) by lia.
      cbn [tm_mon tm_year tm_mday]. rewrite Clamp. repeat split; lia.
    + cbn [tm_mon tm_year tm_mday]. rewrite Clamp. repeat split; lia.
Qed.

Lemma valid_timestamp_add_0 (t : Z) :
  IS_VALID_TIMESTAMP t = true -> to_int64 (t + 0) = t.
Proof.
  unfold IS_VALID_TIMESTAMP, MIN_TIMESTAMP, END_TIMESTAMP.
  rewrite andb_true_iff, Z.leb_le, Z.ltb_lt. intros Hv.
  rewrite Z.add_0_r. apply to_int64_id.
  unfold in_int64, PG_INT64_MIN, PG_INT64_MAX. lia.
Qed.

(** The order of the three steps.  When [tm2timestamp] only hands back
    valid timestamps (PostgreSQL's does), adding an interval to a valid
    timestamp is adding its months, then adding its days to the result,
    then adding its microseconds to that. *)
Lemma pg_timestamp_pl_interval_in_order `{DatetimeRoutines} (t : Z) (i : Interval) :
  (forall tm fsec r, tm2timestamp tm fsec = Some r -> IS_VALID_TIMESTAMP r = true) ->
  IS_VALID_TIMESTAMP t = true ->
  pg_timestamp_pl_interval t i =
    (t1 <- pg_timestamp_pl_interval t {| time := 0; day := 0; month := month i |} ;;
     t2 <- pg_timestamp_pl_interval t1 {| time := 0; day := day i; month := 0 |} ;;
     pg_timestamp_pl_interval t2 {| time := time i; day := 0; month := 0 |}).
Proof.
  intros Hrt Hv.
  assert (Step : forall u, IS_VALID_TIMESTAMP u = true ->
            TIMESTAMP_NOT_FINITE u = false /\ to_int64 (u + 0) = u).
  { intros u Hu. split.
    - apply TIMESTAMP_NOT_FINITE_false, valid_timestamp_finite, Hu.
    - apply valid_timestamp_add_0, Hu. }
  assert (Days : forall u, IS_VALID_TIMESTAMP u = true ->
            (t2 <- pg_timestamp_pl_interval u {| time := 0; day := day i; month := 0 |} ;;
             pg_timestamp_pl_interval t2 {| time := time i; day := 0; month := 0 |})
            = (t2 <- (if negb (day i =? 0) then
                        match timestamp2tm u with
                        | None => Error timestamp_out_of_range
                        | Some (tm, fsec) =>
                            match tm2timestamp (tm_add_days tm (day i)) fsec with
                            | None => Error timestamp_out_of_range
                            | Some t => Ok t
                            end
                        end
                      else Ok u) ;;
               let t3 := to_int64 (t2 + time i) in
               if negb (IS_VALID_TIMESTAMP t3) then Error timestamp_out_of_range
               else Ok t3)).
  { intros u Hu. destruct (Step u Hu) as [Fu Au].
    unfold pg_timestamp_pl_interval at 1. rewrite Fu. cbn [time day month Z.eqb negb bind].
    destruct (negb (day i =? 0)).
    - destruct (timestamp2tm u) as [[tm fsec] |]; [|reflexivity].
      destruct (tm2timestamp (tm_add_days tm (day i)) fsec) as [r |] eqn:Er; [|reflexivity].
      pose proof (Hrt _ _ _ Er) as Hr. destruct (Step r Hr) as [Fr Ar].
      cbn [bind]. rewrite Ar, Hr. cbn [negb bind].
      unfold pg_timestamp_pl_interval. rewrite Fr. reflexivity.
    - cbn [bind]. rewrite Au, Hu. cbn [negb bind].
      unfold pg_timestamp_pl_interval. rewrite Fu. reflexivity. }
  destruct (Step t Hv) as [Ft At].
  unfold pg_timestamp_pl_interval at 1 2. rewrite Ft. cbn [time day month Z.eqb negb bind].
  destruct (negb (month i =? 0)).
  - destruct (timestamp2tm t) as [[tm fsec] |]; [|reflexivity].
    destruct (tm2timestamp (tm_add_months tm (month i)) fsec) as [r |] eqn:Er;
      [|reflexivity].
    pose proof (Hrt _ _ _ Er) as Hr. destruct (Step r Hr) as [Fr Ar].
    cbn [bind]. rewrite Ar, Hr. cbn [negb bind].
    rewrite (Days r Hr). reflexivity.
  - cbn [bind]. rewrite At, Hv. cbn [negb bind].
    rewrite (Days t Hv). reflexivity.
Qed.

Lemma PG_tm2timestamp_valid (tm : pg_tm) (fsec r : Z) :
  PG.tm2timestamp tm fsec = Some r -> IS_VALID_TIMESTAMP r = true.
Proof.
  unfold PG.tm2timestamp.
  repeat match goal with
         | |- (if ?c then _ else _) = _ -> _ => destruct c eqn:?
         end; try discriminate.
  intros E. injection E as <-.
  match goal with
  | V : negb (IS_VALID_TIMESTAMP _) = false |- _ => apply negb_false_iff in V; exact V
  end.
Qed.

(** C1. The microsecond addition wraps silently: a valid timestamp in the
    year 293536 plus an interval of 9.2e18 microseconds, whose sum is far
    beyond the last valid timestamp, comes back without error as a valid
    timestamp before the epoch. *)
Theorem pg_timestamp_pl_interval_time_wraps `{DatetimeRoutines} :
  let t := 9200000000000000000 in
  let i := {| time := 9200000000000000000; day := 0; month := 0 |} in
  IS_VALID_TIMESTAMP t = true /\ Interval_wf i /\
  END_TIMESTAMP <= t + time i /\
  pg_timestamp_pl_interval t i = Ok (-46744073709551616) /\
  IS_VALID_TIMESTAMP (-46744073709551616) = true.
Proof.
  cbv zeta. split; [reflexivity|].
  split; [unfold Interval_wf, in_int64, in_int32; simpl; vm_compute; intuition congruence|].
  split; [vm_compute; congruence|].
  split; [|reflexivity].
  rewrite pg_timestamp_pl_interval_time_only
    by (apply valid_timestamp_finite; reflexivity).
  reflexivity.
Qed.

(** C2. Run on PostgreSQL's date routines from 293536-05-24 11:33:20 with
    one month, one day and 9.2e18 microseconds: months and days are applied
    first and give 293536-06-25 11:33:20; the microsecond step then
    overflows and raises nothing, its wrapped sum is returned. *)
Theorem pg_timestamp_pl_interval_steps_wrap :
  let t := 9200000000000000000 in
  let add := @pg_timestamp_pl_interval pg_datetime in
  IS_VALID_TIMESTAMP t = true /\
  add t {| time := 0; day := 0; month := 1 |} = Ok 9200002678400000000 /\
  add t {| time := 0; day := 1; month := 1 |} = Ok 9200002764800000000 /\
  END_TIMESTAMP <= 9200002764800000000 + 9200000000000000000 /\
  add t {| time := 9200000000000000000; day := 1; month := 1 |}
    = Ok (to_int64 (9200002764800000000 + 9200000000000000000)) /\
  to_int64 (9200002764800000000 + 9200000000000000000) = -46741308909551616.
Proof.
  cbv zeta.
  split; [reflexivity|].
  split; [vm_compute; reflexivity|].
  split; [vm_compute; reflexivity|].
  split; [vm_compute; congruence|].
  split; vm_compute; reflexivity.
Qed.

(** ** Timestamp minus timestamp *)

(** C6. [pg_timestamp_mi] raises "cannot subtract infinite timestamps"
    if and only if one of its arguments is a sentinel, and returns an
    interval if and only if both are finite. *)
Theorem pg_timestamp_mi_error_iff (t1 t2 : Z) :
  (pg_timestamp_mi t1 t2 = Error "cannot subtract infinite timestamps"
   <-> is_sentinel t1 \/ is_sentinel t2)
  /\ ((exists i, pg_timestamp_mi t1 t2 = Ok i)
      <-> ~ is_sentinel t1 /\ ~ is_sentinel t2).
Proof.
  unfold pg_timestamp_mi.
  destruct (TIMESTAMP_NOT_FINITE t1) eqn:E1; simpl.
  - apply TIMESTAMP_NOT_FINITE_true in E1. split; split; intros X.
    + left; assumption.
    + reflexivity.
    + destruct X as [i X]; discriminate X.
    + tauto.
  - apply TIMESTAMP_NOT_FINITE_false in E1.
    destruct (TIMESTAMP_NOT_FINITE t2) eqn:E2.
    + apply TIMESTAMP_NOT_FINITE_true in E2. split; split; intros X.
      * right; assumption.
      * reflexivity.
      * destruct X as [i X]; discriminate X.
      * tauto.
    + apply TIMESTAMP_NOT_FINITE_false in E2. split; split; intros X.
      * discriminate X.
      * tauto.
      * tauto.
      * eexists; reflexivity.
Qed.

Lemma pg_timestamp_mi_error_iff_witness :
  pg_timestamp_mi DT_NOBEGIN 0 = Error "cannot subtract infinite timestamps".
Proof.
  apply (proj1 (pg_timestamp_mi_error_iff DT_NOBEGIN 0)).
  left; left; reflexivity.
Defined.

(** [pg_interval_justify_hours] on an interval without days, as
    [pg_timestamp_mi] calls it: the quotient and the remainder of the
    microseconds by a day. *)
Lemma pg_interval_justify_hours_time_only (d : Z) :
  in_int64 d ->
  pg_interval_justify_hours {| time := d; day := 0; month := 0 |} =
    {| time := Z.rem d USECS_PER_DAY; day := Z.quot d USECS_PER_DAY; month := 0 |}.
Proof.
  intros Hd. unfold in_int64, PG_INT64_MIN, PG_INT64_MAX in Hd.
  destruct (quot_rem_trunc d USECS_PER_DAY) as [Hqr Hs]; [reflexivity|].
  unfold pg_interval_justify_hours, TMODULO. cbn [time day month].
  set (q := Z.quot d USECS_PER_DAY) in *. set (r := Z.rem d USECS_PER_DAY) in *.
  unfold USECS_PER_DAY in *.
  assert (Hq : in_int32 q) by (unfold in_int32, INT32_MIN, INT32_MAX; lia).
  assert (Hq64 : in_int64 q)
    by (unfold in_int64, PG_INT64_MIN, PG_INT64_MAX, in_int32, INT32_MIN, INT32_MAX in *; lia).
  rewrite (to_int64_id q Hq64).
  assert (Et : (if negb (q =? 0)
                then (to_int64 (d - to_int64 (q * 86400000000)), q)
                else (d, q)) = (r, q)).
  { destruct (Z.eqb_spec q 0) as [E0 | E0]; simpl.
    - f_equal. lia.
    - rewrite (to_int64_id (q * 86400000000))
        by (unfold in_int64, PG_INT64_MIN, PG_INT64_MAX; lia).
      rewrite to_int64_id by (unfold in_int64, PG_INT64_MIN, PG_INT64_MAX; lia).
      f_equal. lia. }
  rewrite Et. rewrite Z.add_0_l, (to_int64_id q Hq64), (to_int32_id q Hq).
  destruct (Z.gtb_spec q 0), (Z.ltb_spec r 0), (Z.ltb_spec q 0), (Z.gtb_spec r 0);
    simpl; try reflexivity; exfalso; lia.
Qed.

(** C3. The subtraction [dt1 - dt2] wraps silently: for two valid
    timestamps, the later one in the year 293536 and the earlier one in
    4339 BC, whose difference does not fit in 64 bits, [pg_timestamp_mi]
    raises nothing and returns a negative interval, about 104.7 million
    days backwards, although the first timestamp is the later one.  The
    interval does not add up to the difference of the two timestamps. *)
Theorem pg_timestamp_mi_wraps :
  let t1 := 9200000000000000000 in
  let t2 := -200000000000000000 in
  IS_VALID_TIMESTAMP t1 = true /\ IS_VALID_TIMESTAMP t2 = true /\
  t2 < t1 /\ ~ in_int64 (t1 - t2) /\
  pg_timestamp_mi t1 t2 = Ok {| time := -3309551616; day := -104707686; month := 0 |} /\
  -104707686 * 86400000000 + -3309551616 <> t1 - t2.
Proof.
  cbv zeta. split; [reflexivity|]. split; [reflexivity|].
  split; [lia|].
  split; [unfold in_int64, PG_INT64_MIN, PG_INT64_MAX; lia|].
  split; [vm_compute; reflexivity | lia].
Qed.

(** Where the subtraction does not wrap: for finite timestamps whose
    difference fits in 64 bits, [pg_timestamp_mi] returns an interval
    without months whose days and microseconds add up to exactly
    [t1 - t2]; the microseconds are less than a day in magnitude, the whole
    days are in [day], and [day] and [time] never have opposite signs. *)
Theorem pg_timestamp_mi_normalized (t1 t2 : Z) :
  ~ is_sentinel t1 -> ~ is_sentinel t2 -> in_int64 (t1 - t2) ->
  exists i,
    pg_timestamp_mi t1 t2 = Ok i /\
    month i = 0 /\
    day i * 86400000000 + time i = t1 - t2 /\
    Z.abs (time i) < 86400000000 /\
    day i = Z.quot (t1 - t2) 86400000000 /\
    ~ (day i > 0 /\ time i < 0) /\ ~ (day i < 0 /\ time i > 0).
Proof.
  intros H1 H2 Hd.
  apply TIMESTAMP_NOT_FINITE_false in H1. apply TIMESTAMP_NOT_FINITE_false in H2.
  unfold pg_timestamp_mi. rewrite H1, H2. simpl orb. cbv iota.
  rewrite (to_int64_id _ Hd), (pg_interval_justify_hours_time_only _ Hd).
  eexists. split; [reflexivity|]. cbn [time day month].
  destruct (quot_rem_trunc (t1 - t2) USECS_PER_DAY) as [Hqr Hs]; [reflexivity|].
  unfold USECS_PER_DAY in *.
  repeat split; try lia.
Qed.

Lemma pg_timestamp_mi_normalized_witness :
  exists i,
    pg_timestamp_mi (-1) 172800000005 = Ok i /\
    month i = 0 /\
    day i * 86400000000 + time i = -1 - 172800000005 /\
    Z.abs (time i) < 86400000000 /\
    day i = Z.quot (-1 - 172800000005) 86400000000 /\
    ~ (day i > 0 /\ time i < 0) /\ ~ (day i < 0 /\ time i > 0).
Proof.
  apply (pg_timestamp_mi_normalized (-1) 172800000005).
  - unfold is_sentinel, DT_NOBEGIN, DT_NOEND, PG_INT64_MIN, PG_INT64_MAX. lia.
  - unfold is_sentinel, DT_NOBEGIN, DT_NOEND, PG_INT64_MIN, PG_INT64_MAX. lia.
  - unfold in_int64, PG_INT64_MIN, PG_INT64_MAX. lia.
Defined.

(** ** Interval comparison *)

Lemma int128_compare_spec (x y : Z) : int128_compare x y = Z_of_comparison (x ?= y).
Proof.
  unfold int128_compare.
  destruct (Z.ltb_spec x y) as [Hl | Hl].
  - rewrite (proj2 (Z.compare_lt_iff x y) Hl). reflexivity.
  - destruct (Z.gtb_spec x y) as [Hg | Hg].
    + rewrite (proj2 (Z.compare_gt_iff x y)) by lia. reflexivity.
    + rewrite (proj2 (Z.compare_eq_iff x y)) by lia. reflexivity.
Qed.

(** None of the 64-bit and 128-bit operations of [interval_cmp_value]
    overflows: its result is the linear value of the interval. *)
Lemma interval_cmp_value_exact (i : Interval) :
  Interval_wf i -> interval_cmp_value i = interval_linear i.
Proof.
  intros (Ht & Hd & Hm).
  unfold in_int64, in_int32, PG_INT64_MIN, PG_INT64_MAX, INT32_MIN, INT32_MAX in *.
  destruct (quot_rem_trunc (time i) USECS_PER_DAY) as [Hqr Hs]; [reflexivity|].
  unfold interval_cmp_value, interval_linear.
  set (q := Z.quot (time i) USECS_PER_DAY) in *.
  set (r := Z.rem (time i) USECS_PER_DAY) in *.
  unfold USECS_PER_DAY in *.
  assert (B64 : forall x, - 2 ^ 63 <= x <= 2 ^ 63 - 1 -> to_int64 x = x)
    by (intros; apply to_int64_id; unfold in_int64, PG_INT64_MIN, PG_INT64_MAX; lia).
  assert (B128 : forall x, - 2 ^ 127 <= x <= 2 ^ 127 - 1 -> to_int128 x = x)
    by (intros; apply to_int128_id; unfold in_int128; lia).
  rewrite (B64 q) by lia.
  rewrite (B64 (month i * 30)) by lia.
  rewrite (B64 (q + month i * 30)) by lia.
  rewrite (B64 (q + month i * 30 + day i)) by lia.
  rewrite (B128 r) by lia.
  rewrite (B128 (q + month i * 30 + day i)) by lia.
  rewrite (B128 86400000000) by lia.
  rewrite (B128 ((q + month i * 30 + day i) * 86400000000)) by lia.
  rewrite B128 by lia.
  lia.
Qed.

(** C4. [pg_interval_cmp] is the three-way comparison of the exact values
    [(month * 30 + day) * 86400000000 + time] of the two intervals: the
    128-bit accumulation never overflows. *)
Theorem pg_interval_cmp_linear (i1 i2 : Interval) :
  Interval_wf i1 -> Interval_wf i2 ->
  pg_interval_cmp i1 i2 = Z_of_comparison (interval_linear i1 ?= interval_linear i2).
Proof.
  intros H1 H2. unfold pg_interval_cmp.
  rewrite (interval_cmp_value_exact i1 H1), (interval_cmp_value_exact i2 H2).
  apply int128_compare_spec.
Qed.

(** One month, taken as 30 days, is ordered strictly before 31 days. *)
Lemma pg_interval_cmp_linear_witness :
  pg_interval_cmp {| time := 0; day := 0; month := 1 |}
                  {| time := 0; day := 31; month := 0 |} = -1.
Proof.
  rewrite (pg_interval_cmp_linear {| time := 0; day := 0; month := 1 |}
                                  {| time := 0; day := 31; month := 0 |}).
  - reflexivity.
  - unfold Interval_wf, in_int64, in_int32, PG_INT64_MIN, PG_INT64_MAX, INT32_MIN,
      INT32_MAX; simpl; lia.
  - unfold Interval_wf, in_int64, in_int32, PG_INT64_MIN, PG_INT64_MAX, INT32_MIN,
      INT32_MAX; simpl; lia.
Defined.

(** ** Rounding to a precision *)

(** The two arithmetic branches, when nothing overflows. *)
Lemma adjust_nonneg_branch (t o s : Z) :
  0 < s -> 0 <= o -> 0 <= t -> t + o <= PG_INT64_MAX ->
  to_int64 (to_int64 (Z.quot (to_int64 (t + o)) s) * s) = (t + o) / s * s.
Proof.
  intros Hs Ho Ht Hb. unfold PG_INT64_MAX in Hb.
  assert (B64 : forall x, 0 <= x <= t + o -> to_int64 x = x)
    by (intros; apply to_int64_id; unfold in_int64, PG_INT64_MIN, PG_INT64_MAX; lia).
  rewrite (B64 (t + o)) by lia.
  rewrite Z.quot_div_nonneg by lia.
  pose proof (Z.div_mod (t + o) s ltac:(lia)) as Hdm.
  pose proof (Z.mod_pos_bound (t + o) s Hs) as Hm.
  pose proof (Z.div_pos (t + o) s ltac:(lia) Hs) as Hq.
  assert (Hqs : 0 <= (t + o) / s * s <= t + o) by nia.
  assert (Hq' : 0 <= (t + o) / s <= t + o) by nia.
  rewrite (B64 ((t + o) / s)) by lia.
  apply B64. lia.
Qed.

Lemma adjust_negative_branch (t o s : Z) :
  0 < s -> 0 <= o -> t < 0 -> - t + o <= PG_INT64_MAX ->
  to_int64 (- to_int64 (to_int64 (Z.quot (to_int64 (to_int64 (- t) + o)) s) * s))
  = - ((- t + o) / s * s).
Proof.
  intros Hs Ho Ht Hb.
  assert (E : to_int64 (- t) = - t)
    by (apply to_int64_id; unfold in_int64, PG_INT64_MIN, PG_INT64_MAX in *; lia).
  rewrite E, (adjust_nonneg_branch (- t) o s) by lia.
  pose proof (Z.div_mod (- t + o) s ltac:(lia)) as Hdm.
  pose proof (Z.mod_pos_bound (- t + o) s Hs) as Hm.
  pose proof (Z.div_pos (- t + o) s ltac:(lia) Hs) as Hq.
  apply to_int64_id. unfold in_int64, PG_INT64_MIN, PG_INT64_MAX in *. nia.
Qed.

(** Adding half the scale and truncating rounds halves upwards. *)
Lemma add_half_truncate_rounds (n o s : Z) :
  0 < o -> s = 2 * o -> 0 <= n ->
  rounds_half_away s n ((n + o) / s * s)
  /\ rounds_half_away s (- n) (- ((n + o) / s * s)).
Proof.
  intros Ho Es Hn.
  pose proof (Z.div_mod (n + o) s ltac:(lia)) as Hdm.
  pose proof (Z.mod_pos_bound (n + o) s ltac:(lia)) as Hm.
  pose proof (Z.div_pos (n + o) s ltac:(lia) ltac:(lia)) as Hq.
  set (q := (n + o) / s) in *. set (m := (n + o) mod s) in *.
  assert (Eqs : q * s = n + o - m) by lia.
  unfold rounds_half_away. rewrite Eqs.
  repeat split.
  - exists q. lia.
  - lia.
  - lia.
  - exists (- q). lia.
  - lia.
  - lia.
Qed.

Lemma adjust_arith_rounds (o s t : Z) :
  0 < o -> s = 2 * o -> Z.abs t + o <= PG_INT64_MAX ->
  rounds_half_away s t (adjust_arith o s t)
  /\ adjust_arith o s (- t) = - adjust_arith o s t.
Proof.
  intros Ho Es Hb. unfold adjust_arith.
  destruct (Z.geb_spec t 0) as [Ht | Ht]; destruct (Z.geb_spec (- t) 0) as [Ht' | Ht'];
    try (exfalso; lia).
  - assert (t = 0) by lia. subst t. change (- 0) with 0.
    rewrite (adjust_nonneg_branch 0 o s) by lia.
    destruct (add_half_truncate_rounds 0 o s) as [R1 R2]; try lia.
    split; [exact R1|].
    rewrite Z.add_0_l, Z.div_small by lia. reflexivity.
  - rewrite (adjust_nonneg_branch t o s) by lia.
    destruct (add_half_truncate_rounds t o s) as [R1 R2]; try lia.
    split; [exact R1|].
    rewrite (adjust_negative_branch (- t) o s) by lia.
    rewrite Z.opp_involutive. reflexivity.
  - rewrite (adjust_negative_branch t o s) by lia.
    destruct (add_half_truncate_rounds (- t) o s) as [R1 R2]; try lia.
    rewrite Z.opp_involutive in R2. split; [exact R2|].
    rewrite (adjust_nonneg_branch (- t) o s) by lia.
    rewrite Z.opp_involutive. reflexivity.
Qed.

(** C9 fails as stated: [PG_INT64_MAX - 1] is a finite timestamp, and at
    precision 0 the addition of the offset wraps; the result is a negative
    multiple of a second, nowhere near the input. *)
Lemma AdjustTimestampForTypmodError_wraps :
  let t := PG_INT64_MAX - 1 in
  ~ is_sentinel t /\ in_int64 t /\
  AdjustTimestampForTypmodError t 0 None = Ok (true, -9223372036854000000, None) /\
  ~ rounds_half_away (10 ^ (6 - 0)) t (-9223372036854000000).
Proof.
  cbv zeta. split; [|split; [|split]].
  - unfold is_sentinel, DT_NOBEGIN, DT_NOEND, PG_INT64_MAX, PG_INT64_MIN. lia.
  - unfold in_int64, PG_INT64_MAX, PG_INT64_MIN. lia.
  - vm_compute. reflexivity.
  - unfold rounds_half_away, PG_INT64_MAX. intros (_ & H & _).
    simpl in H. lia.
Qed.

(** Outside the guarded block nothing is touched. *)
Lemma AdjustTimestampForTypmodError_unchanged (error : option bool) (t typmod : Z) :
  is_sentinel t \/ typmod = -1 \/ typmod = MAX_TIMESTAMP_PRECISION ->
  AdjustTimestampForTypmodError t typmod error = Ok (true, t, error).
Proof.
  intros Hc. unfold AdjustTimestampForTypmodError.
  destruct Hc as [Hs | [Hm | Hm]].
  - apply TIMESTAMP_NOT_FINITE_true in Hs. rewrite Hs. reflexivity.
  - subst typmod. simpl. rewrite andb_false_r. reflexivity.
  - subst typmod. simpl. rewrite andb_false_r. reflexivity.
Qed.

(** One precision at a time: the table entries are [o] and [s], and the
    function is [adjust_arith o s] on both [t] and [- t]. *)
Ltac at_precision o s t Hb :=
  let R := fresh "R" in
  let E := fresh "E" in
  destruct (adjust_arith_rounds o s t) as [R E];
    [lia | reflexivity | exact Hb |];
  exists (adjust_arith o s t);
  split; [|split; [exact R | rewrite <- E]];
    unfold adjust_arith;
    [destruct (t >=? 0) | destruct (- t >=? 0)]; reflexivity.

(** Inside it, for the six precisions that have a scale above 1. *)
Lemma AdjustTimestampForTypmodError_precision (error : option bool) (t p : Z) :
  0 <= p < MAX_TIMESTAMP_PRECISION ->
  ~ is_sentinel t ->
  Z.abs t + 10 ^ (6 - p) / 2 <= PG_INT64_MAX ->
  exists r,
    AdjustTimestampForTypmodError t p error = Ok (true, r, error) /\
    rounds_half_away (10 ^ (6 - p)) t r /\
    AdjustTimestampForTypmodError (- t) p error = Ok (true, - r, error).
Proof.
  intros Hp Hf Hb. unfold MAX_TIMESTAMP_PRECISION in Hp.
  assert (C : p = 0 \/ p = 1 \/ p = 2 \/ p = 3 \/ p = 4 \/ p = 5) by lia.
  assert (Hf' : ~ is_sentinel (- t)).
  { assert (1 <= 10 ^ (6 - p) / 2)
      by (destruct C as [C | [C | [C | [C | [C | C]]]]]; subst p;
          vm_compute; congruence).
    unfold is_sentinel, DT_NOBEGIN, DT_NOEND, PG_INT64_MIN, PG_INT64_MAX in *. lia. }
  apply TIMESTAMP_NOT_FINITE_false in Hf. apply TIMESTAMP_NOT_FINITE_false in Hf'.
  unfold AdjustTimestampForTypmodError. rewrite Hf, Hf'.
  destruct C as [C | [C | [C | [C | [C | C]]]]]; subst p.
  - at_precision 500000 1000000 t Hb.
  - at_precision 50000 100000 t Hb.
  - at_precision 5000 10000 t Hb.
  - at_precision 500 1000 t Hb.
  - at_precision 50 100 t Hb.
  - at_precision 5 10 t Hb.
Qed.

(** C9, amended.  [AdjustTimestampForTypmodError] leaves a sentinel
    alone, and any timestamp when the typmod is -1 or 6.  For a precision
    [p] from 0 to 5 and a finite timestamp [t] for which the offset can be
    added to the magnitude of [t] within 64 bits (every valid timestamp
    does), the result is the multiple of [10^(6-p)] nearest to [t], halves
    going away from zero, and the result for [- t] is its negation. *)
Theorem AdjustTimestampForTypmodError_rounds (error : option bool) :
  (forall t typmod,
     is_sentinel t \/ typmod = -1 \/ typmod = MAX_TIMESTAMP_PRECISION ->
     AdjustTimestampForTypmodError t typmod error = Ok (true, t, error))
  /\
  (forall t p,
     0 <= p < MAX_TIMESTAMP_PRECISION ->
     ~ is_sentinel t ->
     Z.abs t + 10 ^ (6 - p) / 2 <= PG_INT64_MAX ->
     exists r,
       AdjustTimestampForTypmodError t p error = Ok (true, r, error) /\
       rounds_half_away (10 ^ (6 - p)) t r /\
       AdjustTimestampForTypmodError (- t) p error = Ok (true, - r, error)).
Proof.
  split.
  - intros t typmod. apply AdjustTimestampForTypmodError_unchanged.
  - intros t p. apply AdjustTimestampForTypmodError_precision.
Qed.

Lemma AdjustTimestampForTypmodError_rounds_witness :
  exists r,
    AdjustTimestampForTypmodError 1500000 0 None = Ok (true, r, None) /\
    rounds_half_away (10 ^ (6 - 0)) 1500000 r /\
    AdjustTimestampForTypmodError (- 1500000) 0 None = Ok (true, - r, None).
Proof.
  apply (proj2 (AdjustTimestampForTypmodError_rounds None) 1500000 0).
  - unfold MAX_TIMESTAMP_PRECISION. lia.
  - unfold is_sentinel, DT_NOBEGIN, DT_NOEND, PG_INT64_MIN, PG_INT64_MAX. lia.
  - vm_compute. congruence.
Defined.

(** Every valid timestamp leaves room for the largest offset. *)
Lemma valid_timestamp_offset_fits (t p : Z) :
  IS_VALID_TIMESTAMP t = true -> 0 <= p < MAX_TIMESTAMP_PRECISION ->
  Z.abs t + 10 ^ (6 - p) / 2 <= PG_INT64_MAX.
Proof.
  unfold IS_VALID_TIMESTAMP, MIN_TIMESTAMP, END_TIMESTAMP, MAX_TIMESTAMP_PRECISION,
    PG_INT64_MAX.
  rewrite andb_true_iff, Z.leb_le, Z.ltb_lt. intros Hv Hp.
  assert (C : p = 0 \/ p = 1 \/ p = 2 \/ p = 3 \/ p = 4 \/ p = 5) by lia.
  destruct C as [C | [C | [C | [C | [C | C]]]]]; subst p.
  - change (10 ^ (6 - 0) / 2) with 500000. lia.
  - change (10 ^ (6 - 1) / 2) with 50000. lia.
  - change (10 ^ (6 - 2) / 2) with 5000. lia.
  - change (10 ^ (6 - 3) / 2) with 500. lia.
  - change (10 ^ (6 - 4) / 2) with 50. lia.
  - change (10 ^ (6 - 5) / 2) with 5. lia.
Qed.

(** [AdjustTimestampForTypmod], the caller that passes no error flag, on
    a valid timestamp. *)
Lemma AdjustTimestampForTypmod_valid (t p : Z) :
  IS_VALID_TIMESTAMP t = true -> 0 <= p < MAX_TIMESTAMP_PRECISION ->
  exists r, AdjustTimestampForTypmod t p = Ok r /\ rounds_half_away (10 ^ (6 - p)) t r.
Proof.
  intros Hv Hp.
  destruct (AdjustTimestampForTypmodError_precision None t p Hp
              (valid_timestamp_finite t Hv) (valid_timestamp_offset_fits t p Hv Hp))
    as (r & Er & Hr & _).
  exists r. unfold AdjustTimestampForTypmod. rewrite Er. split; [reflexivity | exact Hr].
Qed.

(** ** Hashing 64-bit integers *)

Lemma shiftr32_int32 (val : Z) :
  in_int32 val -> Z.shiftr val 32 = if val >=? 0 then 0 else -1.
Proof.
  unfold in_int32, INT32_MIN, INT32_MAX. intros Hv.
  rewrite Z.shiftr_div_pow2 by lia.
  destruct (Z.geb_spec val 0).
  - apply Z.div_small. lia.
  - symmetry. apply (Z.div_unique val (2 ^ 32) (-1) (val + 2 ^ 32)); lia.
Qed.

(** C10. For a value in the range of [int32], the word that [pg_hashint8]
    hands to the 32-bit hash is the low 32 bits of the value, whatever the
    hash routine is: the xor with the (complemented) high half changes
    nothing.  [pg_hashint8extended] hands over the same word. *)
Theorem pg_hashint8_folds_int32 `{HashRoutines} (val : Z) :
  in_int32 val ->
  (let lohalf := to_uint32 val in
   let hihalf := to_uint32 (Z.shiftr val 32) in
   Z.lxor lohalf (if val >=? 0 then hihalf else to_uint32 (Z.lnot hihalf))
   = to_uint32 val)
  /\ pg_hashint8 val = to_uint32 (hash_uint32 (to_uint32 val))
  /\ forall seed, pg_hashint8extended val seed = hash_uint32_extended (to_uint32 val) seed.
Proof.
  intros Hv.
  assert (F : Z.lxor (to_uint32 val)
                (if val >=? 0 then to_uint32 (Z.shiftr val 32)
                 else to_uint32 (Z.lnot (to_uint32 (Z.shiftr val 32))))
              = to_uint32 val).
  { rewrite (shiftr32_int32 val Hv).
    destruct (val >=? 0).
    - change (to_uint32 0) with 0. apply Z.lxor_0_r.
    - change (to_uint32 (Z.lnot (to_uint32 (-1)))) with 0. apply Z.lxor_0_r. }
  cbv zeta. unfold pg_hashint8, pg_hashint8extended. rewrite F.
  repeat split.
Qed.

Lemma pg_hashint8_folds_int32_witness :
  pg_hashint8 (-5) = to_uint32 (hash_bytes_uint32 (to_uint32 (-5))).
Proof.
  refine (proj1 (proj2 (pg_hashint8_folds_int32 (-5) _))).
  unfold in_int32, INT32_MIN, INT32_MAX. lia.
Defined.

(** ** Hashing floats *)

(** A bit pattern is its sign, exponent and fraction fields. *)
Lemma float8_fields (x : float8) :
  is_float8 x ->
  x = (if float8_sign x then 2 ^ 63 else 0)
      + float8_exponent x * 2 ^ 52 + float8_fraction x
  /\ 0 <= float8_exponent x < 2 ^ 11
  /\ 0 <= float8_fraction x < 2 ^ 52.
Proof.
  unfold is_float8, float8_sign, float8_exponent, float8_fraction. intros Hx.
  change 0xfffffffffffff with (Z.ones 52). change 0x7ff with (Z.ones 11).
  rewrite !Z.land_ones, Z.shiftr_div_pow2 by lia.
  pose proof (Z.div_mod x (2 ^ 52) ltac:(lia)) as D1.
  pose proof (Z.mod_pos_bound x (2 ^ 52) ltac:(lia)) as B1.
  pose proof (Z.div_mod (x / 2 ^ 52) (2 ^ 11) ltac:(lia)) as D2.
  pose proof (Z.mod_pos_bound (x / 2 ^ 52) (2 ^ 11) ltac:(lia)) as B2.
  assert (E63 : x / 2 ^ 63 = x / 2 ^ 52 / 2 ^ 11)
    by (rewrite Z.div_div by lia; reflexivity).
  assert (S : 0 <= x / 2 ^ 63 < 2).
  { split; [apply Z.div_pos; lia|]. apply Z.div_lt_upper_bound; lia. }
  assert (T : Z.testbit x 63 = (x / 2 ^ 63 =? 1)).
  { destruct (Z.testbit x 63) eqn:Eb.
    - apply Z.testbit_true in Eb; [|lia]. rewrite Z.mod_small in Eb by lia.
      rewrite Eb. reflexivity.
    - apply Z.testbit_false in Eb; [|lia]. rewrite Z.mod_small in Eb by lia.
      rewrite Eb. reflexivity. }
  rewrite T. destruct (Z.eqb_spec (x / 2 ^ 63) 1); lia.
Qed.

Lemma float8_fields_inj (x y : float8) :
  is_float8 x -> is_float8 y ->
  float8_sign x = float8_sign y ->
  float8_exponent x = float8_exponent y ->
  float8_fraction x = float8_fraction y ->
  x = y.
Proof.
  intros Hx Hy Es Ee Ef.
  destruct (float8_fields x Hx) as (Ex & _). destruct (float8_fields y Hy) as (Ey & _).
  rewrite Ex, Ey, Es, Ee, Ef. reflexivity.
Qed.

Lemma pos_compare_cont_Eq (p q : positive) : Pos.compare_cont Eq p q = Eq -> p = q.
Proof. apply Pos.compare_eq. Qed.

(** Equality of finite or infinite values: same sign, same exponent, same
    mantissa. *)
Lemma SFeqb_finite_inv s1 m1 e1 s2 m2 e2 :
  SFeqb (S754_finite s1 m1 e1) (S754_finite s2 m2 e2) = true ->
  s1 = s2 /\ m1 = m2 /\ e1 = e2.
Proof.
  unfold SFeqb, SFcompare.
  destruct s1, s2; try discriminate;
    destruct (Z.compare_spec e1 e2); try discriminate;
    destruct (Pos.compare_cont Eq m1 m2) eqn:Em; try discriminate;
    intros _; apply pos_compare_cont_Eq in Em; auto.
Qed.

(** Two patterns that compare equal are both zeros or are the same
    pattern. *)
Lemma float8_eq_inv (x y : float8) :
  is_float8 x -> is_float8 y ->
  float8_eq x y = true ->
  (float8_eq x float8_zero = true /\ float8_eq y float8_zero = true) \/ x = y.
Proof.
  intros Hx Hy.
  destruct (float8_fields x Hx) as (_ & Bex & Bfx).
  destruct (float8_fields y Hy) as (_ & Bey & Bfy).
  pose proof (float8_fields_inj x y Hx Hy) as Inj.
  unfold float8_eq, float8_zero.
  change (float8_decode 0) with (S754_zero false).
  unfold float8_decode.
  destruct (Z.eqb_spec (float8_exponent x) 0) as [Ex0 | Ex0];
    destruct (Z.eqb_spec (float8_exponent y) 0) as [Ey0 | Ey0];
    destruct (Z.eqb_spec (float8_fraction x) 0) as [Fx0 | Fx0];
    destruct (Z.eqb_spec (float8_fraction y) 0) as [Fy0 | Fy0];
    destruct (Z.eqb_spec (float8_exponent x) 2047) as [Ex1 | Ex1];
    destruct (Z.eqb_spec (float8_exponent y) 2047) as [Ey1 | Ey1];
    try (exfalso; lia);
    try (intros E; left; split; reflexivity);
    try (intros E; discriminate E);
    try (destruct (float8_sign x), (float8_sign y); intros E; discriminate E);
    try (intros E; apply SFeqb_finite_inv in E; destruct E as (Es & Em & Ee);
         apply Z2Pos.inj in Em; try lia; right; apply Inj; try assumption; lia).
  - destruct (float8_sign x) eqn:Sx, (float8_sign y) eqn:Sy; intros E;
      try discriminate E; right; apply Inj; congruence.
Qed.

Lemma isnan_not_eq (x y : float8) : isnan x = true -> float8_eq x y = false.
Proof.
  unfold isnan, float8_eq. destruct (float8_decode x); try discriminate.
  reflexivity.
Qed.

(** C8. Two floats that compare equal as IEEE values (so -0.0 and 0.0),
    or that are both NaNs of any bit pattern, get the same hash from
    [pg_hashfloat8], whatever [hash_any] computes. *)
Theorem pg_hashfloat8_equal `{HashRoutines} (a b : float8) :
  is_float8 a -> is_float8 b ->
  float8_eq a b = true \/ (isnan a = true /\ isnan b = true) ->
  pg_hashfloat8 a = pg_hashfloat8 b.
Proof.
  intros Ha Hb [Heq | [Na Nb]]; unfold pg_hashfloat8.
  - destruct (float8_eq_inv a b Ha Hb Heq) as [[Za Zb] | E].
    + rewrite Za, Zb. reflexivity.
    + subst b. reflexivity.
  - rewrite (isnan_not_eq a _ Na), (isnan_not_eq b _ Nb), Na, Nb. reflexivity.
Qed.

(** -0.0 and 0.0. *)
Lemma pg_hashfloat8_equal_witness :
  pg_hashfloat8 0x8000000000000000 = pg_hashfloat8 0.
Proof.
  apply (pg_hashfloat8_equal 0x8000000000000000 0).
  - unfold is_float8. lia.
  - unfold is_float8. lia.
  - left. reflexivity.
Defined.

(** ** [hash_bytes] and [hash_bytes_uint32] *)

Lemma word_le_uint32_bytes (x : Z) :
  in_uint32 x ->
  word_le (Z.land (Z.shiftr x 0) 0xff) (Z.land (Z.shiftr x 8) 0xff)
          (Z.land (Z.shiftr x 16) 0xff) (Z.land (Z.shiftr x 24) 0xff) = x.
Proof.
  unfold in_uint32. intros Hx.
  change 0xff with (Z.ones 8).
  rewrite !Z.land_ones, !Z.shiftr_div_pow2 by lia.
  change (2 ^ 0) with 1. rewrite Z.div_1_r.
  pose proof (Z.div_mod x (2 ^ 8) ltac:(lia)) as D0.
  pose proof (Z.mod_pos_bound x (2 ^ 8) ltac:(lia)) as B0.
  pose proof (Z.div_mod (x / 2 ^ 8) (2 ^ 8) ltac:(lia)) as D1.
  pose proof (Z.mod_pos_bound (x / 2 ^ 8) (2 ^ 8) ltac:(lia)) as B1.
  pose proof (Z.div_mod (x / 2 ^ 16) (2 ^ 8) ltac:(lia)) as D2.
  pose proof (Z.mod_pos_bound (x / 2 ^ 16) (2 ^ 8) ltac:(lia)) as B2.
  assert (E16 : x / 2 ^ 8 / 2 ^ 8 = x / 2 ^ 16) by (rewrite Z.div_div by lia; reflexivity).
  assert (E24 : x / 2 ^ 16 / 2 ^ 8 = x / 2 ^ 24) by (rewrite Z.div_div by lia; reflexivity).
  assert (S24 : 0 <= x / 2 ^ 24 < 2 ^ 8).
  { split; [apply Z.div_pos; lia|]. apply Z.div_lt_upper_bound; lia. }
  rewrite (Z.mod_small (x / 2 ^ 24)) by lia.
  rewrite E16 in D1. rewrite E24 in D2.
  set (b0 := x mod 2 ^ 8) in *. set (b1 := (x / 2 ^ 8) mod 2 ^ 8) in *.
  set (b2 := (x / 2 ^ 16) mod 2 ^ 8) in *. set (b3 := x / 2 ^ 24) in *.
  unfold word_le, to_uint32, to_unsigned.
  rewrite !Z.shiftl_mul_pow2 by lia.
  rewrite (Z.mod_small (b1 * 2 ^ 8)), (Z.mod_small (b2 * 2 ^ 16)),
    (Z.mod_small (b3 * 2 ^ 24)) by lia.
  rewrite (Z.mod_small (b0 + b1 * 2 ^ 8)) by lia.
  rewrite (Z.mod_small (b0 + b1 * 2 ^ 8 + b2 * 2 ^ 16)) by lia.
  rewrite Z.mod_small by lia. lia.
Qed.

(** What the comment on [hash_bytes_uint32] promises: it has the same
    result as [hash_bytes(&k, sizeof(uint32))]. *)
Lemma hash_bytes_uint32_is_hash_bytes (k : Z) :
  in_uint32 k -> hash_bytes (uint32_bytes k) = hash_bytes_uint32 k.
Proof.
  intros Hk. unfold hash_bytes, uint32_bytes, hash_bytes_uint32.
  cbn [map seq List.length hash_bytes_from nth Z.of_nat Pos.of_succ_nat Pos.succ Z.mul].
  change (8 * 0) with 0. change (Z.pos (8 * 1)) with 8.
  change (Z.pos (8 * 2)) with 16. change (Z.pos (8 * 3)) with 24.
  rewrite (word_le_uint32_bytes k Hk).
  change (word_le 0 0 0 0) with 0. change (to_uint32 4) with 4.
  fold hash_init. rewrite !Z.add_0_r.
  change (to_uint32 hash_init) with hash_init.
  reflexivity.
Qed.

(** ** The functions at work *)

(** 2000-01-31 plus one month is 2000-02-29: the day of the month is cut
    down to the length of February in a leap year. *)
Example end_of_january_plus_month :
  @pg_timestamp_pl_interval pg_datetime (30 * USECS_PER_DAY)
    {| time := 0; day := 0; month := 1 |} = Ok (59 * USECS_PER_DAY).
Proof. vm_compute. reflexivity. Qed.

(** Months before days: from 2000-01-30, one month and one day lead to
    2000-03-01; days first would have led to 2000-02-29. *)
Example months_before_days :
  @pg_timestamp_pl_interval pg_datetime (29 * USECS_PER_DAY)
    {| time := 0; day := 1; month := 1 |} = Ok (60 * USECS_PER_DAY)
  /\ (t <- @pg_timestamp_pl_interval pg_datetime (29 * USECS_PER_DAY)
             {| time := 0; day := 1; month := 0 |} ;;
      @pg_timestamp_pl_interval pg_datetime t {| time := 0; day := 0; month := 1 |})
     = Ok (59 * USECS_PER_DAY).
Proof. split; vm_compute; reflexivity. Qed.

(** Overflow that stays within 64 bits is refused, in each step. *)
Example out_of_range_refused :
  @pg_timestamp_pl_interval pg_datetime 0 {| time := 0; day := 0; month := INT32_MAX |}
    = Error "timestamp out of range"
  /\ @pg_timestamp_pl_interval pg_datetime 0 {| time := 0; day := INT32_MAX; month := 0 |}
    = Error "timestamp out of range"
  /\ @pg_timestamp_pl_interval pg_datetime 0 {| time := PG_INT64_MAX; day := 0; month := 0 |}
    = Error "timestamp out of range".
Proof. repeat split; vm_compute; reflexivity. Qed.

(** One microsecond before the epoch minus two days and five microseconds
    past it. *)
Example timestamp_mi_negative :
  pg_timestamp_mi (-1) 172800000005 = Ok {| time := -6; day := -2; month := 0 |}.
Proof. vm_compute. reflexivity. Qed.

Example justify_hours_borrows :
  pg_interval_justify_hours {| time := -1; day := 1; month := 0 |}
  = {| time := 86399999999; day := 0; month := 0 |}.
Proof. vm_compute. reflexivity. Qed.

Example interval_cmp_month_30_days :
  pg_interval_cmp {| time := 0; day := 0; month := 1 |}
                  {| time := 0; day := 30; month := 0 |} = 0.
Proof. vm_compute. reflexivity. Qed.

Example adjust_half_second :
  AdjustTimestampForTypmod 1500000 0 = Ok 2000000
  /\ AdjustTimestampForTypmod (-1500000) 0 = Ok (-2000000)
  /\ AdjustTimestampForTypmod 1499999 0 = Ok 1000000
  /\ AdjustTimestampForTypmod 1234567 3 = Ok 1235000.
Proof. repeat split; vm_compute; reflexivity. Qed.

Example adjust_bad_precision :
  AdjustTimestampForTypmod 0 7 = Error precision_error
  /\ AdjustTimestampForTypmodError 0 7 (Some false) = Ok (false, 0, Some true).
Proof. split; vm_compute; reflexivity. Qed.

(** [hashint4(1)] is -1905060026 in PostgreSQL, and [hashint8(1)] with it. *)
Example hash_of_one :
  to_int32 (hash_bytes_uint32 1) = -1905060026
  /\ to_int32 (@pg_hashint8 pg_call_hash 1) = -1905060026.
Proof. split; vm_compute; reflexivity. Qed.

(** Outside the [int32] range the high half does change the word. *)
Example hashint8_high_half :
  @pg_hashint8 pg_call_hash (2 ^ 32) = hash_bytes_uint32 1.
Proof. vm_compute. reflexivity. Qed.

(** Two NaNs with different payloads and signs. *)
Example hashfloat8_nans :
  @pg_hashfloat8 pg_call_hash 0x7ff8000000000001
  = @pg_hashfloat8 pg_call_hash 0xfff0000000000123.
Proof. vm_compute. reflexivity. Qed.

(** * Further properties *)

(** ** Interval addition as an operation *)

Lemma SAMESIGN_sym (a b : Z) : SAMESIGN a b = SAMESIGN b a.
Proof. unfold SAMESIGN. destruct (a <? 0), (b <? 0); reflexivity. Qed.

Lemma samesign_check_sym (a b r : Z) :
  SAMESIGN a b && negb (SAMESIGN r a) = SAMESIGN b a && negb (SAMESIGN r b).
Proof. unfold SAMESIGN. destruct (a <? 0), (b <? 0), (r <? 0); reflexivity. Qed.

(** The overflow test looks at the first operand only, and yet the
    operation is commutative, errors included, on any operands. *)
Theorem pg_interval_pl_comm (span1 span2 : Interval) :
  pg_interval_pl span1 span2 = pg_interval_pl span2 span1.
Proof.
  unfold pg_interval_pl.
  rewrite (Z.add_comm (month span2)), (Z.add_comm (day span2)),
    (Z.add_comm (time span2)).
  rewrite (samesign_check_sym (month span1) (month span2)).
  rewrite (samesign_check_sym (day span1) (day span2)).
  rewrite (samesign_check_sym (time span1) (time span2)).
  reflexivity.
Qed.

(** What a successful addition returned. *)
Lemma pg_interval_pl_Ok_inv (i1 i2 r : Interval) :
  Interval_wf i1 -> Interval_wf i2 ->
  pg_interval_pl i1 i2 = Ok r ->
  sums_fit i1 i2 /\ Interval_wf r /\
  time r = time i1 + time i2 /\ day r = day i1 + day i2 /\
  month r = month i1 + month i2.
Proof.
  intros (Ht1 & Hd1 & Hm1) (Ht2 & Hd2 & Hm2). unfold pg_interval_pl.
  destruct (SAMESIGN (month i1) (month i2) &&
            negb (SAMESIGN (to_int32 (month i1 + month i2)) (month i1))) eqn:Em;
    [discriminate|].
  destruct (SAMESIGN (day i1) (day i2) &&
            negb (SAMESIGN (to_int32 (day i1 + day i2)) (day i1))) eqn:Ed;
    [discriminate|].
  destruct (SAMESIGN (time i1) (time i2) &&
            negb (SAMESIGN (to_int64 (time i1 + time i2)) (time i1))) eqn:Et;
    [discriminate|].
  pose proof (samesign_pass_int32 _ _ Hm1 Hm2 Em) as Fm.
  pose proof (samesign_pass_int32 _ _ Hd1 Hd2 Ed) as Fd.
  pose proof (samesign_pass_int64 _ _ Ht1 Ht2 Et) as Ft.
  rewrite (to_int32_id _ Fm), (to_int32_id _ Fd), (to_int64_id _ Ft).
  intros E. injection E as <-. cbn [time day month].
  unfold sums_fit, Interval_wf. tauto.
Qed.

(** And when an addition succeeds. *)
Lemma pg_interval_pl_fits (i1 i2 : Interval) :
  Interval_wf i1 -> Interval_wf i2 -> sums_fit i1 i2 ->
  pg_interval_pl i1 i2 =
    Ok {| time := time i1 + time i2; day := day i1 + day i2;
          month := month i1 + month i2 |}.
Proof.
  intros (Ht1 & Hd1 & Hm1) (Ht2 & Hd2 & Hm2) (Fm & Fd & Ft). unfold pg_interval_pl.
  destruct (SAMESIGN (month i1) (month i2) &&
            negb (SAMESIGN (to_int32 (month i1 + month i2)) (month i1))) eqn:Em.
  { apply (samesign_check_int32 _ _ Hm1 Hm2) in Em. contradiction. }
  destruct (SAMESIGN (day i1) (day i2) &&
            negb (SAMESIGN (to_int32 (day i1 + day i2)) (day i1))) eqn:Ed.
  { apply (samesign_check_int32 _ _ Hd1 Hd2) in Ed. contradiction. }
  destruct (SAMESIGN (time i1) (time i2) &&
            negb (SAMESIGN (to_int64 (time i1 + time i2)) (time i1))) eqn:Et.
  { apply (samesign_check_int64 _ _ Ht1 Ht2) in Et. contradiction. }
  rewrite (to_int32_id _ Fm), (to_int32_id _ Fd), (to_int64_id _ Ft). reflexivity.
Qed.

(** Sums that succeed in both groupings agree: when [i1 + i2], then
    [(i1 + i2) + i3], and [i2 + i3] are all accepted, [i1 + (i2 + i3)] is
    accepted too and is the same interval. *)
Theorem pg_interval_pl_assoc (i1 i2 i3 i12 i23 i123 : Interval) :
  Interval_wf i1 -> Interval_wf i2 -> Interval_wf i3 ->
  pg_interval_pl i1 i2 = Ok i12 ->
  pg_interval_pl i12 i3 = Ok i123 ->
  pg_interval_pl i2 i3 = Ok i23 ->
  pg_interval_pl i1 i23 = Ok i123.
Proof.
  intros W1 W2 W3 E12 E123 E23.
  destruct (pg_interval_pl_Ok_inv _ _ _ W1 W2 E12) as (_ & W12 & T12 & D12 & M12).
  destruct (pg_interval_pl_Ok_inv _ _ _ W12 W3 E123) as (_ & W123 & T123 & D123 & M123).
  destruct (pg_interval_pl_Ok_inv _ _ _ W2 W3 E23) as (_ & W23 & T23 & D23 & M23).
  rewrite (pg_interval_pl_fits i1 i23 W1 W23).
  - f_equal. destruct i123 as [t d m]. cbn [time day month] in *. f_equal; lia.
  - destruct W123 as (A & B & C). unfold sums_fit.
    rewrite T23, D23, M23.
    replace (month i1 + (month i2 + month i3)) with (month i123) by lia.
    replace (day i1 + (day i2 + day i3)) with (day i123) by lia.
    replace (time i1 + (time i2 + time i3)) with (time i123) by lia.
    tauto.
Qed.

Lemma pg_interval_pl_assoc_witness :
  pg_interval_pl {| time := 5; day := -1; month := 2 |}
                 {| time := 10; day := 31; month := -3 |}
  = Ok {| time := 15; day := 30; month := -1 |}.
Proof.
  apply (pg_interval_pl_assoc
           {| time := 5; day := -1; month := 2 |}
           {| time := 3; day := 1; month := -3 |}
           {| time := 7; day := 30; month := 0 |}
           {| time := 8; day := 0; month := -1 |}
           {| time := 10; day := 31; month := -3 |}
           {| time := 15; day := 30; month := -1 |});
    try reflexivity;
    unfold Interval_wf, in_int64, in_int32, PG_INT64_MIN, PG_INT64_MAX, INT32_MIN,
      INT32_MAX; simpl; lia.
Defined.

(** ** Justifying hours *)

(** [TMODULO] by a day splits a 64-bit count of microseconds into its
    quotient and remainder; none of its operations overflows. *)
Lemma TMODULO_day (t : Z) :
  in_int64 t -> TMODULO t USECS_PER_DAY = (Z.rem t USECS_PER_DAY, Z.quot t USECS_PER_DAY).
Proof.
  intros Ht. unfold in_int64, PG_INT64_MIN, PG_INT64_MAX in Ht.
  destruct (quot_rem_trunc t USECS_PER_DAY) as [Hqr Hs]; [reflexivity|].
  unfold TMODULO.
  set (q := Z.quot t USECS_PER_DAY) in *. set (r := Z.rem t USECS_PER_DAY) in *.
  unfold USECS_PER_DAY in *.
  assert (B64 : forall x, - 2 ^ 63 <= x <= 2 ^ 63 - 1 -> to_int64 x = x)
    by (intros; apply to_int64_id; unfold in_int64, PG_INT64_MIN, PG_INT64_MAX; lia).
  rewrite (B64 q) by lia.
  destruct (Z.eqb_spec q 0) as [E0 | E0]; simpl.
  - f_equal. lia.
  - rewrite (B64 (q * 86400000000)) by lia. rewrite B64 by lia. f_equal. lia.
Qed.

(** The interval [pg_interval_justify_hours] returns, when the whole days
    taken out of [time] can be added to [day] within 32 bits (the addition
    the source marks "could overflow"): the quotient goes to [day], the
    remainder stays in [time], and one day is moved back if the two ended
    up with opposite signs. *)
Lemma pg_interval_justify_hours_value (i : Interval) :
  Interval_wf i ->
  in_int32 (day i + Z.quot (time i) USECS_PER_DAY) ->
  let d := day i + Z.quot (time i) USECS_PER_DAY in
  let r := Z.rem (time i) USECS_PER_DAY in
  pg_interval_justify_hours i =
    if (d >? 0) && (r <? 0) then
      {| time := r + USECS_PER_DAY; day := d - 1; month := month i |}
    else if (d <? 0) && (r >? 0) then
      {| time := r - USECS_PER_DAY; day := d + 1; month := month i |}
    else {| time := r; day := d; month := month i |}.
Proof.
  intros (Ht & Hd & Hm) Hfit. cbv zeta.
  unfold pg_interval_justify_hours. rewrite (TMODULO_day _ Ht).
  destruct (quot_rem_trunc (time i) USECS_PER_DAY) as [Hqr Hs]; [reflexivity|].
  set (q := Z.quot (time i) USECS_PER_DAY) in *.
  set (r := Z.rem (time i) USECS_PER_DAY) in *.
  unfold in_int64, in_int32, PG_INT64_MIN, PG_INT64_MAX, INT32_MIN, INT32_MAX,
    USECS_PER_DAY in *.
  assert (B64 : forall x, - 2 ^ 63 <= x <= 2 ^ 63 - 1 -> to_int64 x = x)
    by (intros; apply to_int64_id; unfold in_int64, PG_INT64_MIN, PG_INT64_MAX; lia).
  assert (B32 : forall x, - 2 ^ 31 <= x <= 2 ^ 31 - 1 -> to_int32 x = x)
    by (intros; apply to_int32_id; unfold in_int32, INT32_MIN, INT32_MAX; lia).
  rewrite (B64 (day i + q)), (B32 (day i + q)) by lia.
  destruct (Z.gtb_spec (day i + q) 0); destruct (Z.ltb_spec r 0); cbn [andb].
  - rewrite B64, B32 by lia. reflexivity.
  - destruct (Z.ltb_spec (day i + q) 0); destruct (Z.gtb_spec r 0); cbn [andb];
      try reflexivity; exfalso; lia.
  - destruct (Z.ltb_spec (day i + q) 0); destruct (Z.gtb_spec r 0); cbn [andb];
      try reflexivity. rewrite B64, B32 by lia. reflexivity.
  - destruct (Z.ltb_spec (day i + q) 0); destruct (Z.gtb_spec r 0); cbn [andb];
      try reflexivity. rewrite B64, B32 by lia. reflexivity.
Qed.

(** The normal form of the result, for use below. *)
Lemma pg_interval_justify_hours_normal_form (i : Interval) :
  Interval_wf i ->
  in_int32 (day i + Z.quot (time i) USECS_PER_DAY) ->
  let r := pg_interval_justify_hours i in
  Interval_wf r /\
  month r = month i /\
  day r * 86400000000 + time r = day i * 86400000000 + time i /\
  Z.abs (time r) < 86400000000 /\
  ~ (day r > 0 /\ time r < 0) /\ ~ (day r < 0 /\ time r > 0).
Proof.
  intros W Hfit. cbv zeta.
  rewrite (pg_interval_justify_hours_value i W Hfit).
  destruct W as (Ht & Hd & Hm).
  destruct (quot_rem_trunc (time i) USECS_PER_DAY) as [Hqr Hs]; [reflexivity|].
  set (q := Z.quot (time i) USECS_PER_DAY) in *.
  set (r := Z.rem (time i) USECS_PER_DAY) in *.
  unfold Interval_wf, in_int64, in_int32, PG_INT64_MIN, PG_INT64_MAX, INT32_MIN,
    INT32_MAX, USECS_PER_DAY in *.
  destruct (Z.gtb_spec (day i + q) 0); destruct (Z.ltb_spec r 0); cbn [andb];
    try (cbn [time day month]; lia);
    destruct (Z.ltb_spec (day i + q) 0); destruct (Z.gtb_spec r 0); cbn [andb];
    cbn [time day month]; lia.
Qed.

(** For an interval whose whole days fit, [pg_interval_justify_hours]
    changes neither the months nor the length [day * 86400000000 + time];
    what it returns has less than a day in [time], and [day] and [time] do
    not have opposite signs. *)
Theorem pg_interval_justify_hours_normalizes (i : Interval) :
  Interval_wf i ->
  in_int32 (day i + Z.quot (time i) USECS_PER_DAY) ->
  let r := pg_interval_justify_hours i in
  Interval_wf r /\
  month r = month i /\
  day r * 86400000000 + time r = day i * 86400000000 + time i /\
  Z.abs (time r) < 86400000000 /\
  ~ (day r > 0 /\ time r < 0) /\ ~ (day r < 0 /\ time r > 0).
Proof.
  intros W Hfit. exact (pg_interval_justify_hours_normal_form i W Hfit).
Qed.

Lemma pg_interval_justify_hours_normalizes_witness :
  let r := pg_interval_justify_hours {| time := -90000000000; day := 3; month := 7 |} in
  Interval_wf r /\
  month r = 7 /\
  day r * 86400000000 + time r = 3 * 86400000000 + -90000000000 /\
  Z.abs (time r) < 86400000000 /\
  ~ (day r > 0 /\ time r < 0) /\ ~ (day r < 0 /\ time r > 0).
Proof.
  apply (pg_interval_justify_hours_normalizes
           {| time := -90000000000; day := 3; month := 7 |}).
  - unfold Interval_wf, in_int64, in_int32, PG_INT64_MIN, PG_INT64_MAX, INT32_MIN,
      INT32_MAX; simpl; lia.
  - vm_compute. split; congruence.
Defined.

(** Justifying twice is justifying once. *)
Theorem pg_interval_justify_hours_idempotent (i : Interval) :
  Interval_wf i ->
  in_int32 (day i + Z.quot (time i) USECS_PER_DAY) ->
  pg_interval_justify_hours (pg_interval_justify_hours i) = pg_interval_justify_hours i.
Proof.
  intros W Hfit.
  destruct (pg_interval_justify_hours_normal_form i W Hfit) as (Wr & _ & _ & Hlt & S1 & S2).
  set (r := pg_interval_justify_hours i) in *.
  assert (Q : Z.quot (time r) USECS_PER_DAY = 0).
  { apply Z.quot_small_iff; [discriminate|]. unfold USECS_PER_DAY. simpl Z.abs. lia. }
  assert (R : Z.rem (time r) USECS_PER_DAY = time r).
  { pose proof (Z.quot_rem' (time r) USECS_PER_DAY) as E. rewrite Q in E. lia. }
  assert (Fit : in_int32 (day r + Z.quot (time r) USECS_PER_DAY))
    by (rewrite Q, Z.add_0_r; apply Wr).
  rewrite (pg_interval_justify_hours_value r Wr Fit). cbv zeta.
  rewrite Q, R, Z.add_0_r.
  destruct (Z.gtb_spec (day r) 0); destruct (Z.ltb_spec (time r) 0); cbn [andb];
    try (exfalso; lia);
    destruct (Z.ltb_spec (day r) 0); destruct (Z.gtb_spec (time r) 0); cbn [andb];
    try (exfalso; lia); destruct r; reflexivity.
Qed.

Lemma pg_interval_justify_hours_idempotent_witness :
  pg_interval_justify_hours
    (pg_interval_justify_hours {| time := 200000000000; day := -1; month := 0 |})
  = pg_interval_justify_hours {| time := 200000000000; day := -1; month := 0 |}.
Proof.
  apply (pg_interval_justify_hours_idempotent
           {| time := 200000000000; day := -1; month := 0 |}).
  - unfold Interval_wf, in_int64, in_int32, PG_INT64_MIN, PG_INT64_MAX, INT32_MIN,
      INT32_MAX; simpl; lia.
  - vm_compute. split; congruence.
Defined.

(** ** Comparison as an order *)

Lemma interval_linear_justify_hours (i : Interval) :
  Interval_wf i ->
  in_int32 (day i + Z.quot (time i) USECS_PER_DAY) ->
  interval_linear (pg_interval_justify_hours i) = interval_linear i.
Proof.
  intros W Hfit.
  destruct (pg_interval_justify_hours_normal_form i W Hfit) as (_ & Hm & Hl & _).
  unfold interval_linear. rewrite Hm. lia.
Qed.

(** A justified interval compares with any other interval, on either
    side, as the interval it was made from. *)
Theorem pg_interval_cmp_justify_hours (i j : Interval) :
  Interval_wf i ->
  in_int32 (day i + Z.quot (time i) USECS_PER_DAY) ->
  pg_interval_cmp (pg_interval_justify_hours i) j = pg_interval_cmp i j
  /\ pg_interval_cmp j (pg_interval_justify_hours i) = pg_interval_cmp j i.
Proof.
  intros W Hfit.
  destruct (pg_interval_justify_hours_normal_form i W Hfit) as (Wr & _).
  unfold pg_interval_cmp.
  rewrite (interval_cmp_value_exact _ Wr), (interval_cmp_value_exact _ W),
    (interval_linear_justify_hours i W Hfit).
  split; reflexivity.
Qed.

Lemma pg_interval_cmp_justify_hours_witness :
  pg_interval_cmp (pg_interval_justify_hours {| time := 86400000000; day := 29; month := 0 |})
                  {| time := 0; day := 0; month := 1 |}
  = pg_interval_cmp {| time := 86400000000; day := 29; month := 0 |}
                    {| time := 0; day := 0; month := 1 |}.
Proof.
  apply (pg_interval_cmp_justify_hours
           {| time := 86400000000; day := 29; month := 0 |}
           {| time := 0; day := 0; month := 1 |}).
  - unfold Interval_wf, in_int64, in_int32, PG_INT64_MIN, PG_INT64_MAX, INT32_MIN,
      INT32_MAX; simpl; lia.
  - vm_compute. split; congruence.
Defined.

(** [pg_interval_cmp] answers -1, 0 or 1; swapping its arguments negates
    the answer, an interval compares equal to itself, and "not after" is
    transitive.  This holds for any field values. *)
Theorem pg_interval_cmp_order (i1 i2 i3 : Interval) :
  (pg_interval_cmp i1 i2 = -1 \/ pg_interval_cmp i1 i2 = 0 \/ pg_interval_cmp i1 i2 = 1)
  /\ pg_interval_cmp i2 i1 = - pg_interval_cmp i1 i2
  /\ pg_interval_cmp i1 i1 = 0
  /\ (pg_interval_cmp i1 i2 <= 0 -> pg_interval_cmp i2 i3 <= 0 ->
      pg_interval_cmp i1 i3 <= 0).
Proof.
  unfold pg_interval_cmp. rewrite !int128_compare_spec.
  set (v1 := interval_cmp_value i1). set (v2 := interval_cmp_value i2).
  set (v3 := interval_cmp_value i3).
  destruct (Z.compare_spec v1 v2), (Z.compare_spec v2 v1), (Z.compare_spec v2 v3),
    (Z.compare_spec v1 v3), (Z.compare_spec v1 v1);
    cbn [Z_of_comparison]; try lia.
Qed.

(** Adding the same interval to both sides does not change how two
    intervals compare, whenever both additions are accepted. *)
Theorem pg_interval_cmp_pl (i1 i2 k r1 r2 : Interval) :
  Interval_wf i1 -> Interval_wf i2 -> Interval_wf k ->
  pg_interval_pl i1 k = Ok r1 ->
  pg_interval_pl i2 k = Ok r2 ->
  pg_interval_cmp r1 r2 = pg_interval_cmp i1 i2.
Proof.
  intros W1 W2 Wk E1 E2.
  destruct (pg_interval_pl_Ok_inv _ _ _ W1 Wk E1) as (_ & Wr1 & T1 & D1 & M1).
  destruct (pg_interval_pl_Ok_inv _ _ _ W2 Wk E2) as (_ & Wr2 & T2 & D2 & M2).
  unfold pg_interval_cmp.
  rewrite !interval_cmp_value_exact, !int128_compare_spec by assumption.
  f_equal. unfold interval_linear. rewrite T1, D1, M1, T2, D2, M2.
  rewrite !Z.compare_sub with (n := _ + _). f_equal. lia.
Qed.

Lemma pg_interval_cmp_pl_witness :
  pg_interval_cmp {| time := 0; day := 5; month := 2 |} {| time := 0; day := 36; month := 1 |}
  = pg_interval_cmp {| time := 0; day := 0; month := 1 |}
                    {| time := 0; day := 31; month := 0 |}.
Proof.
  apply (pg_interval_cmp_pl
           {| time := 0; day := 0; month := 1 |}
           {| time := 0; day := 31; month := 0 |}
           {| time := 0; day := 5; month := 1 |});
    try reflexivity;
    unfold Interval_wf, in_int64, in_int32, PG_INT64_MIN, PG_INT64_MAX, INT32_MIN,
      INT32_MAX; simpl; lia.
Defined.

(** ** Wrap-around as arithmetic modulo 2^64 *)

Lemma to_signed_add_l (w a b : Z) :
  to_signed w (to_signed w a + b) = to_signed w (a + b).
Proof.
  unfold to_signed. f_equal.
  replace ((a + 2 ^ (w - 1)) mod 2 ^ w - 2 ^ (w - 1) + b + 2 ^ (w - 1))
    with ((a + 2 ^ (w - 1)) mod 2 ^ w + b) by lia.
  rewrite Zplus_mod_idemp_l. f_equal. lia.
Qed.

Lemma to_int64_add_l (a b : Z) : to_int64 (to_int64 a + b) = to_int64 (a + b).
Proof. apply to_signed_add_l. Qed.

Lemma to_int64_add_r (a b : Z) : to_int64 (a + to_int64 b) = to_int64 (a + b).
Proof. rewrite Z.add_comm, to_int64_add_l, Z.add_comm. reflexivity. Qed.

Lemma valid_timestamp_in_int64 (t : Z) : IS_VALID_TIMESTAMP t = true -> in_int64 t.
Proof.
  unfold IS_VALID_TIMESTAMP, MIN_TIMESTAMP, END_TIMESTAMP, in_int64, PG_INT64_MIN,
    PG_INT64_MAX.
  rewrite andb_true_iff, Z.leb_le, Z.ltb_lt. lia.
Qed.

(** ** What [pg_timestamp_pl_interval] can return *)

(** Whatever the date routines do, a timestamp that comes back is either
    the sentinel that went in or a timestamp in the valid range, and the
    only error is "timestamp out of range", which a sentinel never gets. *)
Theorem pg_timestamp_pl_interval_result `{DatetimeRoutines} (t : Z) (i : Interval) :
  (forall r, pg_timestamp_pl_interval t i = Ok r ->
     (is_sentinel t /\ r = t) \/ (~ is_sentinel t /\ IS_VALID_TIMESTAMP r = true))
  /\ (forall msg, pg_timestamp_pl_interval t i = Error msg ->
        msg = "timestamp out of range" /\ ~ is_sentinel t).
Proof.
  unfold pg_timestamp_pl_interval.
  destruct (TIMESTAMP_NOT_FINITE t) eqn:Ef.
  - apply TIMESTAMP_NOT_FINITE_true in Ef. split.
    + intros r E. injection E as <-. left. split; [assumption | reflexivity].
    + intros msg E. discriminate E.
  - apply TIMESTAMP_NOT_FINITE_false in Ef.
    assert (Last : forall u,
              (forall r, (let u' := to_int64 (u + time i) in
                          if negb (IS_VALID_TIMESTAMP u') then Error timestamp_out_of_range
                          else Ok u') = Ok r -> IS_VALID_TIMESTAMP r = true)
              /\ (forall msg, (let u' := to_int64 (u + time i) in
                               if negb (IS_VALID_TIMESTAMP u')
                               then Error timestamp_out_of_range
                               else Ok u') = Error msg -> msg = "timestamp out of range")).
    { intros u. cbv zeta.
      destruct (IS_VALID_TIMESTAMP (to_int64 (u + time i))) eqn:Ev; cbn [negb]; split.
      - intros r E. injection E as <-. exact Ev.
      - intros msg E. discriminate E.
      - intros r E. discriminate E.
      - intros msg E. injection E as <-. reflexivity. }
    split.
    + intros r E. right. split; [assumption|]. revert E.
      destruct (negb (month i =? 0));
        [destruct (timestamp2tm t) as [[tm fsec] |];
           [destruct (tm2timestamp (tm_add_months tm (month i)) fsec) as [t1 |]|]|];
        cbn [bind]; try discriminate;
        match goal with
        | |- bind (if negb (day i =? 0) then _ else _) _ = _ -> _ =>
            destruct (negb (day i =? 0));
              [match goal with
               | |- context [timestamp2tm ?u] =>
                   destruct (timestamp2tm u) as [[tm' fsec'] |];
                     [destruct (tm2timestamp (tm_add_days tm' (day i)) fsec') as [t2 |]|]
               end|];
              cbn [bind]; try discriminate; apply Last
        end.
    + intros msg E. split; [|assumption]. revert E.
      destruct (negb (month i =? 0));
        [destruct (timestamp2tm t) as [[tm fsec] |];
           [destruct (tm2timestamp (tm_add_months tm (month i)) fsec) as [t1 |]|]|];
        cbn [bind];
        try (intros E; injection E as <-; reflexivity);
        match goal with
        | |- bind (if negb (day i =? 0) then _ else _) _ = _ -> _ =>
            destruct (negb (day i =? 0));
              [match goal with
               | |- context [timestamp2tm ?u] =>
                   destruct (timestamp2tm u) as [[tm' fsec'] |];
                     [destruct (tm2timestamp (tm_add_days tm' (day i)) fsec') as [t2 |]|]
               end|];
              cbn [bind];
              try (intros E; injection E as <-; reflexivity); apply Last
        end.
Qed.

Lemma pg_timestamp_pl_interval_result_witness :
  (is_sentinel 0 /\ 3600000000 = 0)
  \/ (~ is_sentinel 0 /\ IS_VALID_TIMESTAMP 3600000000 = true).
Proof.
  apply (proj1 (@pg_timestamp_pl_interval_result pg_datetime 0
                  {| time := 3600000000; day := 0; month := 0 |})).
  reflexivity.
Defined.

(** ** Adding and subtracting microseconds *)

(** [pg_timestamp_mi_interval] on an interval of microseconds only adds
    the negated count, negated in 64 bits. *)
Lemma pg_timestamp_mi_interval_time_only `{DatetimeRoutines} (t us : Z) :
  ~ is_sentinel t ->
  pg_timestamp_mi_interval t {| time := us; day := 0; month := 0 |} =
    if IS_VALID_TIMESTAMP (to_int64 (t - us)) then Ok (to_int64 (t - us))
    else Error "timestamp out of range".
Proof.
  intros Hf. unfold pg_timestamp_mi_interval. cbn [time day month].
  change (to_int32 (- 0)) with 0.
  rewrite (pg_timestamp_pl_interval_time_only t _ Hf).
  rewrite to_int64_add_r. reflexivity.
Qed.

(** Subtracting undoes adding: when microseconds were added to a valid
    timestamp and a timestamp came back, subtracting the same interval from
    it gives the first timestamp again, for any 64-bit count. *)
Theorem pg_timestamp_mi_interval_undoes_pl `{DatetimeRoutines} (t us r : Z) :
  IS_VALID_TIMESTAMP t = true ->
  pg_timestamp_pl_interval t {| time := us; day := 0; month := 0 |} = Ok r ->
  pg_timestamp_mi_interval r {| time := us; day := 0; month := 0 |} = Ok t.
Proof.
  intros Hv E.
  rewrite (pg_timestamp_pl_interval_time_only t us (valid_timestamp_finite t Hv)) in E.
  destruct (IS_VALID_TIMESTAMP (to_int64 (t + us))) eqn:Ev; [|discriminate E].
  injection E as <-.
  rewrite (pg_timestamp_mi_interval_time_only _ us (valid_timestamp_finite _ Ev)).
  assert (Eq : to_int64 (to_int64 (t + us) - us) = t).
  { unfold Z.sub. rewrite to_int64_add_l.
    replace (t + us + - us) with t by lia.
    apply to_int64_id, valid_timestamp_in_int64, Hv. }
  rewrite Eq, Hv. reflexivity.
Qed.

Lemma pg_timestamp_mi_interval_undoes_pl_witness :
  @pg_timestamp_mi_interval pg_datetime 86400000001
    {| time := 86400000000; day := 0; month := 0 |} = Ok 1.
Proof.
  apply (@pg_timestamp_mi_interval_undoes_pl pg_datetime 1 86400000000 86400000001);
    reflexivity.
Defined.

(** The difference gives the interval back: after microseconds were added
    to a valid timestamp, [pg_timestamp_mi] of the result and the start is
    the interval that was added, with its hours justified. *)
Theorem pg_timestamp_mi_of_pl `{DatetimeRoutines} (t us r : Z) :
  IS_VALID_TIMESTAMP t = true -> in_int64 us ->
  pg_timestamp_pl_interval t {| time := us; day := 0; month := 0 |} = Ok r ->
  pg_timestamp_mi r t =
    Ok (pg_interval_justify_hours {| time := us; day := 0; month := 0 |}).
Proof.
  intros Hv Hus E.
  rewrite (pg_timestamp_pl_interval_time_only t us (valid_timestamp_finite t Hv)) in E.
  destruct (IS_VALID_TIMESTAMP (to_int64 (t + us))) eqn:Ev; [|discriminate E].
  injection E as <-.
  unfold pg_timestamp_mi.
  rewrite (proj2 (TIMESTAMP_NOT_FINITE_false _) (valid_timestamp_finite _ Ev)).
  rewrite (proj2 (TIMESTAMP_NOT_FINITE_false _) (valid_timestamp_finite _ Hv)).
  cbn [orb].
  assert (Eq : to_int64 (to_int64 (t + us) - t) = us).
  { unfold Z.sub. rewrite to_int64_add_l.
    replace (t + us + - t) with us by lia. apply to_int64_id, Hus. }
  rewrite Eq. reflexivity.
Qed.

Lemma pg_timestamp_mi_of_pl_witness :
  pg_timestamp_mi 90000000001 1 =
    Ok (pg_interval_justify_hours {| time := 90000000000; day := 0; month := 0 |}).
Proof.
  apply (@pg_timestamp_mi_of_pl pg_datetime 1 90000000000 90000000001).
  - reflexivity.
  - unfold in_int64, PG_INT64_MIN, PG_INT64_MAX. lia.
  - reflexivity.
Defined.

(** The value of [pg_timestamp_mi] on finite timestamps whose difference
    fits in 64 bits. *)
Lemma pg_timestamp_mi_value (t1 t2 : Z) :
  ~ is_sentinel t1 -> ~ is_sentinel t2 -> in_int64 (t1 - t2) ->
  pg_timestamp_mi t1 t2 =
    Ok {| time := Z.rem (t1 - t2) USECS_PER_DAY;
          day := Z.quot (t1 - t2) USECS_PER_DAY;
          month := 0 |}.
Proof.
  intros H1 H2 Hd.
  apply TIMESTAMP_NOT_FINITE_false in H1. apply TIMESTAMP_NOT_FINITE_false in H2.
  unfold pg_timestamp_mi. rewrite H1, H2. cbn [orb].
  rewrite (to_int64_id _ Hd), (pg_interval_justify_hours_time_only _ Hd). reflexivity.
Qed.

(** Swapping the timestamps negates the days and the microseconds. *)
Theorem pg_timestamp_mi_swap (t1 t2 : Z) (i : Interval) :
  ~ is_sentinel t1 -> ~ is_sentinel t2 ->
  in_int64 (t1 - t2) -> in_int64 (t2 - t1) ->
  pg_timestamp_mi t1 t2 = Ok i ->
  pg_timestamp_mi t2 t1 = Ok {| time := - time i; day := - day i; month := 0 |}.
Proof.
  intros H1 H2 D12 D21 E.
  rewrite (pg_timestamp_mi_value t1 t2 H1 H2 D12) in E. injection E as <-.
  rewrite (pg_timestamp_mi_value t2 t1 H2 H1 D21). cbn [time day month].
  replace (t2 - t1) with (- (t1 - t2)) by lia.
  rewrite Z.rem_opp_l, Z.quot_opp_l by discriminate. reflexivity.
Qed.

Lemma pg_timestamp_mi_swap_witness :
  pg_timestamp_mi 0 90000000000 = Ok {| time := - 3600000000; day := - 1; month := 0 |}.
Proof.
  apply (pg_timestamp_mi_swap 90000000000 0 {| time := 3600000000; day := 1; month := 0 |});
    try reflexivity;
    unfold is_sentinel, in_int64, DT_NOBEGIN, DT_NOEND, PG_INT64_MIN, PG_INT64_MAX; lia.
Defined.

(** The difference of two timestamps compares with the empty interval as
    the first timestamp compares with the second. *)
Theorem pg_interval_cmp_timestamp_mi (t1 t2 : Z) (i : Interval) :
  ~ is_sentinel t1 -> ~ is_sentinel t2 -> in_int64 (t1 - t2) ->
  pg_timestamp_mi t1 t2 = Ok i ->
  pg_interval_cmp i interval_zero = Z_of_comparison (t1 ?= t2).
Proof.
  intros H1 H2 Hd E.
  rewrite (pg_timestamp_mi_value t1 t2 H1 H2 Hd) in E. injection E as <-.
  destruct (quot_rem_trunc (t1 - t2) USECS_PER_DAY) as [Hqr Hs]; [reflexivity|].
  unfold pg_interval_cmp.
  rewrite !interval_cmp_value_exact, int128_compare_spec.
  - f_equal. unfold interval_linear, interval_zero. cbn [time day month].
    unfold USECS_PER_DAY in *.
    rewrite (Z.compare_sub t1 t2). f_equal. lia.
  - unfold Interval_wf, interval_zero, in_int64, in_int32, PG_INT64_MIN, PG_INT64_MAX,
      INT32_MIN, INT32_MAX. simpl. lia.
  - unfold Interval_wf, in_int64, in_int32, PG_INT64_MIN, PG_INT64_MAX, INT32_MIN,
      INT32_MAX, USECS_PER_DAY in *. cbn [time day month]. lia.
Qed.

Lemma pg_interval_cmp_timestamp_mi_witness :
  pg_interval_cmp {| time := - 3600000000; day := - 1; month := 0 |} interval_zero
  = Z_of_comparison (0 ?= 90000000000).
Proof.
  apply (pg_interval_cmp_timestamp_mi 0 90000000000);
    try reflexivity;
    unfold is_sentinel, in_int64, DT_NOBEGIN, DT_NOEND, PG_INT64_MIN, PG_INT64_MAX; lia.
Defined.

(** ** Rounding to a precision, further *)

Lemma to_int64_range (x : Z) : in_int64 (to_int64 x).
Proof.
  unfold to_int64, to_signed, in_int64, PG_INT64_MIN, PG_INT64_MAX.
  pose proof (Z.mod_pos_bound (x + 2 ^ (64 - 1)) (2 ^ 64) ltac:(lia)).
  change (2 ^ (64 - 1)) with (2 ^ 63) in *. lia.
Qed.

Lemma to_int64_opp (x : Z) :
  in_int64 x -> to_int64 (- x) = - x \/ to_int64 (- x) = x.
Proof.
  unfold in_int64, PG_INT64_MIN, PG_INT64_MAX. intros Hx.
  destruct (Z.eq_dec x (- 2 ^ 63)) as [E | E].
  - right. subst x. reflexivity.
  - left. apply to_int64_id. unfold in_int64, PG_INT64_MIN, PG_INT64_MAX. lia.
Qed.

(** Dividing a 64-bit value by a positive scale and multiplying back stays
    within 64 bits and gives a multiple of the scale. *)
Lemma quot_scale_back (w s : Z) :
  in_int64 w -> 0 < s ->
  in_int64 (to_int64 (to_int64 (Z.quot w s) * s))
  /\ (s | to_int64 (to_int64 (Z.quot w s) * s)).
Proof.
  intros Hw Hs. unfold in_int64, PG_INT64_MIN, PG_INT64_MAX in Hw.
  destruct (quot_rem_trunc w s Hs) as [Hqr Hsg].
  set (q := Z.quot w s) in *. set (r := Z.rem w s) in *.
  assert (Hq : - 2 ^ 63 <= q <= 2 ^ 63 - 1) by nia.
  assert (Hqs : - 2 ^ 63 <= q * s <= 2 ^ 63 - 1) by nia.
  assert (B64 : forall x, - 2 ^ 63 <= x <= 2 ^ 63 - 1 -> to_int64 x = x)
    by (intros; apply to_int64_id; unfold in_int64, PG_INT64_MIN, PG_INT64_MAX; lia).
  rewrite (B64 q Hq), (B64 (q * s) Hqs).
  split; [unfold in_int64, PG_INT64_MIN, PG_INT64_MAX; lia | exists q; reflexivity].
Qed.

Lemma adjust_arith_multiple (o s t : Z) :
  0 < s -> (s | adjust_arith o s t).
Proof.
  intros Hs. unfold adjust_arith. destruct (t >=? 0).
  - apply quot_scale_back; [apply to_int64_range | assumption].
  - destruct (quot_scale_back (to_int64 (to_int64 (- t) + o)) s
                (to_int64_range _) Hs) as [Hr Hd].
    destruct (to_int64_opp _ Hr) as [E | E]; rewrite E.
    + apply Z.divide_opp_r, Hd.
    + exact Hd.
Qed.

Ltac multiple_at_precision o s t :=
  exists (adjust_arith o s t);
  split; [unfold adjust_arith; destruct (t >=? 0); reflexivity
         | apply (adjust_arith_multiple o s t); lia].

(** Whatever finite timestamp goes in, wrapped additions included, what
    comes out at a precision [p] below 6 is a multiple of [10^(6-p)]
    microseconds: it has at most [p] decimals of a second. *)
Theorem AdjustTimestampForTypmodError_multiple (error : option bool) (t p : Z) :
  ~ is_sentinel t -> 0 <= p < MAX_TIMESTAMP_PRECISION ->
  exists r,
    AdjustTimestampForTypmodError t p error = Ok (true, r, error)
    /\ (10 ^ (6 - p) | r).
Proof.
  intros Hf Hp. unfold MAX_TIMESTAMP_PRECISION in Hp.
  apply TIMESTAMP_NOT_FINITE_false in Hf.
  unfold AdjustTimestampForTypmodError. rewrite Hf.
  assert (C : p = 0 \/ p = 1 \/ p = 2 \/ p = 3 \/ p = 4 \/ p = 5) by lia.
  destruct C as [C | [C | [C | [C | [C | C]]]]]; subst p.
  - multiple_at_precision 500000 1000000 t.
  - multiple_at_precision 50000 100000 t.
  - multiple_at_precision 5000 10000 t.
  - multiple_at_precision 500 1000 t.
  - multiple_at_precision 50 100 t.
  - multiple_at_precision 5 10 t.
Qed.

Lemma AdjustTimestampForTypmodError_multiple_witness :
  exists r,
    AdjustTimestampForTypmodError (PG_INT64_MAX - 1) 2 None = Ok (true, r, None)
    /\ (10 ^ (6 - 2) | r).
Proof.
  apply (AdjustTimestampForTypmodError_multiple None (PG_INT64_MAX - 1) 2).
  - unfold is_sentinel, DT_NOBEGIN, DT_NOEND, PG_INT64_MIN, PG_INT64_MAX. lia.
  - unfold MAX_TIMESTAMP_PRECISION. lia.
Defined.

(** Two multiples of a scale that are less than the scale apart are the
    same. *)
Lemma multiples_close (s a b : Z) :
  0 < s -> (s | a) -> (s | b) -> Z.abs (a - b) < s -> a = b.
Proof.
  intros Hs [x ->] [y ->] Hlt.
  assert (x = y) by nia. subst. reflexivity.
Qed.

Lemma multiples_le (s a b : Z) :
  0 < s -> (s | a) -> (s | b) -> a < b + s -> a <= b.
Proof.
  intros Hs [x ->] [y ->] Hlt.
  assert (x <= y) by nia. nia.
Qed.

Lemma scale_of_precision (p : Z) :
  0 <= p < MAX_TIMESTAMP_PRECISION ->
  0 < 10 ^ (6 - p) / 2 /\ 10 ^ (6 - p) = 2 * (10 ^ (6 - p) / 2)
  /\ (10 ^ (6 - p) | MIN_TIMESTAMP) /\ (10 ^ (6 - p) | END_TIMESTAMP)
  /\ 10 ^ (6 - p) <= 1000000.
Proof.
  unfold MAX_TIMESTAMP_PRECISION. intros Hp.
  assert (C : p = 0 \/ p = 1 \/ p = 2 \/ p = 3 \/ p = 4 \/ p = 5) by lia.
  destruct C as [C | [C | [C | [C | [C | C]]]]]; subst p;
    (split; [vm_compute; reflexivity|]); (split; [vm_compute; reflexivity|]);
    (split; [|split; [|vm_compute; congruence]]).
  - exists (-211813488000); reflexivity.
  - exists 9223371331200; reflexivity.
  - exists (-2118134880000); reflexivity.
  - exists 92233713312000; reflexivity.
  - exists (-21181348800000); reflexivity.
  - exists 922337133120000; reflexivity.
  - exists (-211813488000000); reflexivity.
  - exists 9223371331200000; reflexivity.
  - exists (-2118134880000000); reflexivity.
  - exists 92233713312000000; reflexivity.
  - exists (-21181348800000000); reflexivity.
  - exists 922337133120000000; reflexivity.
Qed.

(** Rounding a valid timestamp at a precision below 6, as the helper of C9
    gives it, with the bounds of the valid range spelled out. *)
Lemma adjust_valid (error : option bool) (t p r : Z) :
  IS_VALID_TIMESTAMP t = true -> 0 <= p < MAX_TIMESTAMP_PRECISION ->
  AdjustTimestampForTypmodError t p error = Ok (true, r, error) ->
  rounds_half_away (10 ^ (6 - p)) t r
  /\ MIN_TIMESTAMP <= t < END_TIMESTAMP.
Proof.
  intros Hv Hp E.
  destruct (AdjustTimestampForTypmodError_precision error t p Hp
              (valid_timestamp_finite t Hv) (valid_timestamp_offset_fits t p Hv Hp))
    as (r' & Er & Hr & _).
  rewrite Er in E. injection E as <-. split; [exact Hr|].
  unfold IS_VALID_TIMESTAMP in Hv.
  rewrite andb_true_iff, Z.leb_le, Z.ltb_lt in Hv. exact Hv.
Qed.

(** Rounding a valid timestamp never goes below the first valid timestamp,
    but it can reach [END_TIMESTAMP], the first value that is not valid any
    more: exactly when the timestamp is within half a unit of it. *)
Theorem AdjustTimestampForTypmodError_range (error : option bool) (t p r : Z) :
  IS_VALID_TIMESTAMP t = true -> 0 <= p < MAX_TIMESTAMP_PRECISION ->
  AdjustTimestampForTypmodError t p error = Ok (true, r, error) ->
  MIN_TIMESTAMP <= r <= END_TIMESTAMP
  /\ (r = END_TIMESTAMP <-> END_TIMESTAMP - 10 ^ (6 - p) / 2 <= t).
Proof.
  intros Hv Hp E.
  destruct (adjust_valid error t p r Hv Hp E) as ((Dr & Hn & Htie) & Ht).
  destruct (scale_of_precision p Hp) as (Ho & Es & Dmin & Dmax & _).
  set (s := 10 ^ (6 - p)) in *. set (o := s / 2) in *.
  assert (Hle : r <= END_TIMESTAMP) by (apply (multiples_le s); try assumption; lia).
  assert (Hge : MIN_TIMESTAMP <= r) by (apply (multiples_le s); try assumption; lia).
  split; [lia|]. split.
  - intros ->. lia.
  - intros Hnear.
    destruct (Z.eq_dec r END_TIMESTAMP) as [|Hne]; [assumption|exfalso].
    assert (Hlow : r <= END_TIMESTAMP - s).
    { assert (r + s <= END_TIMESTAMP); [|lia].
      apply (multiples_le s); try assumption; try lia.
      apply Z.divide_add_r; [assumption | apply Z.divide_refl]. }
    unfold END_TIMESTAMP, MIN_TIMESTAMP in *. lia.
Qed.

Lemma AdjustTimestampForTypmodError_range_witness :
  MIN_TIMESTAMP <= END_TIMESTAMP <= END_TIMESTAMP
  /\ (END_TIMESTAMP = END_TIMESTAMP
      <-> END_TIMESTAMP - 10 ^ (6 - 0) / 2 <= END_TIMESTAMP - 1).
Proof.
  apply (AdjustTimestampForTypmodError_range None (END_TIMESTAMP - 1) 0 END_TIMESTAMP).
  - reflexivity.
  - unfold MAX_TIMESTAMP_PRECISION. lia.
  - reflexivity.
Defined.

(** Rounding what was already rounded changes nothing. *)
Theorem AdjustTimestampForTypmodError_idempotent (error : option bool) (t p r : Z) :
  IS_VALID_TIMESTAMP t = true -> 0 <= p < MAX_TIMESTAMP_PRECISION ->
  AdjustTimestampForTypmodError t p error = Ok (true, r, error) ->
  AdjustTimestampForTypmodError r p error = Ok (true, r, error).
Proof.
  intros Hv Hp E.
  destruct (adjust_valid error t p r Hv Hp E) as ((Dr & Hn & _) & Ht).
  destruct (scale_of_precision p Hp) as (Ho & Es & _ & _ & Hs).
  assert (Hfin : ~ is_sentinel r).
  { unfold is_sentinel, DT_NOBEGIN, DT_NOEND, PG_INT64_MIN, PG_INT64_MAX,
      MIN_TIMESTAMP, END_TIMESTAMP in *. lia. }
  assert (Hfit : Z.abs r + 10 ^ (6 - p) / 2 <= PG_INT64_MAX).
  { unfold PG_INT64_MAX, MIN_TIMESTAMP, END_TIMESTAMP in *. lia. }
  destruct (AdjustTimestampForTypmodError_precision error r p Hp Hfin Hfit)
    as (r' & Er' & (Dr' & Hn' & _) & _).
  rewrite Er'. repeat f_equal.
  apply (multiples_close (10 ^ (6 - p))); try assumption; lia.
Qed.

Lemma AdjustTimestampForTypmodError_idempotent_witness :
  AdjustTimestampForTypmodError 1235000 3 None = Ok (true, 1235000, None).
Proof.
  apply (AdjustTimestampForTypmodError_idempotent None 1234567 3 1235000).
  - reflexivity.
  - unfold MAX_TIMESTAMP_PRECISION. lia.
  - reflexivity.
Defined.

(** Rounding keeps valid timestamps in order. *)
Theorem AdjustTimestampForTypmodError_monotone (error : option bool) (t1 t2 p r1 r2 : Z) :
  IS_VALID_TIMESTAMP t1 = true -> IS_VALID_TIMESTAMP t2 = true ->
  0 <= p < MAX_TIMESTAMP_PRECISION ->
  t1 <= t2 ->
  AdjustTimestampForTypmodError t1 p error = Ok (true, r1, error) ->
  AdjustTimestampForTypmodError t2 p error = Ok (true, r2, error) ->
  r1 <= r2.
Proof.
  intros Hv1 Hv2 Hp Hle E1 E2.
  destruct (Z.eq_dec t1 t2) as [-> | Hne].
  - rewrite E1 in E2. injection E2 as <-. lia.
  - destruct (adjust_valid error t1 p r1 Hv1 Hp E1) as ((D1 & N1 & _) & _).
    destruct (adjust_valid error t2 p r2 Hv2 Hp E2) as ((D2 & N2 & _) & _).
    destruct (scale_of_precision p Hp) as (Ho & Es & _).
    apply (multiples_le (10 ^ (6 - p))); try assumption; lia.
Qed.

Lemma AdjustTimestampForTypmodError_monotone_witness : -2000000 <= 1000000.
Proof.
  apply (AdjustTimestampForTypmodError_monotone None (-1500000) 1499999 0
           (-2000000) 1000000);
    try reflexivity.
  - unfold MAX_TIMESTAMP_PRECISION. lia.
  - lia.
Defined.

(** [AdjustTimestampForTypmod] raises, and then the precision error,
    exactly for a finite timestamp with a typmod below -1 or above 6: a
    sentinel passes with any typmod.  [AdjustTimestampForTypmodError] with
    an error flag never raises; in that case it returns [false], sets the
    flag and leaves the timestamp alone. *)
Theorem AdjustTimestampForTypmod_error_iff (t typmod : Z) :
  (AdjustTimestampForTypmod t typmod = Error precision_error
   <-> ~ is_sentinel t /\ (typmod < -1 \/ MAX_TIMESTAMP_PRECISION < typmod))
  /\ (forall msg, AdjustTimestampForTypmod t typmod = Error msg -> msg = precision_error)
  /\ (forall flag,
        ~ is_sentinel t /\ (typmod < -1 \/ MAX_TIMESTAMP_PRECISION < typmod) ->
        AdjustTimestampForTypmodError t typmod (Some flag) = Ok (false, t, Some true)).
Proof.
  unfold AdjustTimestampForTypmod, AdjustTimestampForTypmodError, MAX_TIMESTAMP_PRECISION.
  destruct (TIMESTAMP_NOT_FINITE t) eqn:Ef.
  - apply TIMESTAMP_NOT_FINITE_true in Ef. cbn [negb andb bind].
    split; [split; [discriminate | tauto]|]. split; [discriminate | tauto].
  - apply TIMESTAMP_NOT_FINITE_false in Ef. cbn [negb andb].
    destruct (Z.eqb_spec typmod (-1)) as [E1 | E1];
      destruct (Z.eqb_spec typmod 6) as [E6 | E6]; cbn [negb andb bind];
      try (split; [split; [discriminate | lia]|]; split; [discriminate | lia]).
    destruct (Z.ltb_spec typmod 0) as [L | L];
      destruct (Z.gtb_spec typmod 6) as [G | G]; cbn [orb bind];
      try (split; [split; [intros _; split; [assumption | lia] | reflexivity]|];
           split; [intros msg X; injection X as <-; reflexivity | reflexivity]).
    destruct (t >=? 0); cbn [bind];
      (split; [split; [discriminate | lia]|]; split; [discriminate | lia]).
Qed.

Lemma AdjustTimestampForTypmod_error_iff_witness :
  AdjustTimestampForTypmod 0 7 = Error precision_error.
Proof.
  apply (proj1 (AdjustTimestampForTypmod_error_iff 0 7)).
  split.
  - unfold is_sentinel, DT_NOBEGIN, DT_NOEND, PG_INT64_MIN, PG_INT64_MAX. lia.
  - unfold MAX_TIMESTAMP_PRECISION. lia.
Defined.

(** ** The seeded hash at seed 0 *)

Lemma to_uint32_range (x : Z) : in_uint32 (to_uint32 x).
Proof. unfold in_uint32, to_uint32, to_unsigned. apply Z.mod_pos_bound. lia. Qed.

(** The last two words [final] leaves are 32-bit words. *)
Lemma final_range (abc : Z * Z * Z) :
  in_uint32 (snd (fst (final abc))) /\ in_uint32 (snd (final abc)).
Proof.
  destruct abc as [[a b] c]. unfold final. cbv zeta. cbn [fst snd].
  split; apply to_uint32_range.
Qed.

(** A 32-bit word under a word shifted into the upper half. *)
Lemma low_half_of_pair (b c : Z) :
  in_uint32 c -> to_uint32 (Z.lor (to_uint64 (Z.shiftl b 32)) c) = c.
Proof.
  unfold in_uint32. intros Hc. unfold to_uint32, to_uint64, to_unsigned.
  rewrite <- !Z.land_ones by lia.
  rewrite Z.land_lor_distr_l.
  rewrite <- (Z.land_assoc (Z.shiftl b 32)).
  change (Z.land (Z.ones 64) (Z.ones 32)) with (Z.ones 32).
  rewrite !Z.land_ones by lia.
  rewrite Z.shiftl_mul_pow2 by lia. rewrite Z.mod_mul by lia.
  rewrite Z.lor_0_l. apply Z.mod_small. lia.
Qed.

Lemma hash_bytes_uint32_extended_low (k : Z) :
  to_uint32 (hash_bytes_uint32_extended k 0) = hash_bytes_uint32 k.
Proof.
  unfold hash_bytes_uint32_extended, hash_bytes_uint32. cbn [Z.eqb negb].
  pose proof (final_range (to_uint32 (hash_init + k), hash_init, hash_init)) as [_ Hc].
  destruct (final (to_uint32 (hash_init + k), hash_init, hash_init)) as [[a b] c].
  cbn [fst snd] in Hc. apply low_half_of_pair, Hc.
Qed.

(** With seed 0 the mixing of the seed is skipped, and the low 32 bits of
    the 64-bit hash are the 32-bit hash of the same word. *)
Theorem hash_bytes_uint32_extended_seed0 (k : Z) :
  to_uint32 (hash_bytes_uint32_extended k 0) = hash_bytes_uint32 k.
Proof. exact (hash_bytes_uint32_extended_low k). Qed.

(** [pg_hashint8extended] with seed 0 and [pg_hashint8] agree on the low 32
    bits, for every 64-bit value, with the hash routines of [pg_call.c]. *)
Theorem pg_hashint8extended_seed0 (val : Z) :
  to_uint32 (@pg_hashint8extended pg_call_hash val 0) = @pg_hashint8 pg_call_hash val.
Proof.
  unfold pg_hashint8extended, pg_hashint8. cbn [hash_uint32 hash_uint32_extended pg_call_hash].
  cbv zeta. rewrite hash_bytes_uint32_extended_low.
  symmetry. apply Z.mod_small.
  unfold hash_bytes_uint32.
  match goal with
  | |- context [final ?x] =>
      pose proof (final_range x) as [_ Hc]; destruct (final x) as [[a b] c]
  end.
  exact Hc.
Qed.

(** ** Looking up an indexable function *)

Lemma func_needs_index_named (name : string) (last : IndexableFunction)
    (named : list IndexableFunction) :
  fn_name last = None ->
  named <> [] ->
  Forall (fun e => fn_name e <> None) named ->
  func_needs_index name (named ++ [last])%list = Some (first_named name named).
Proof.
  intros Hlast. induction named as [|e rest IH]; intros Hne Hall; [contradiction|].
  inversion Hall as [|e' rest' He Hrest]; subst.
  cbn [app func_needs_index first_named].
  destruct (fn_name e) as [n|] eqn:En; [|contradiction].
  destruct (String.eqb n name); [reflexivity|].
  destruct rest as [|e2 rest2].
  - cbn [app]. rewrite Hlast. reflexivity.
  - cbn [app]. inversion Hrest as [|e2' rest2' He2 Hrest2]; subst.
    destruct (fn_name e2) as [n2|] eqn:En2; [|contradiction].
    change (e2 :: (rest2 ++ [last])%list) with ((e2 :: rest2) ++ [last])%list.
    apply IH; [discriminate | assumption].
Qed.

Lemma first_named_Some (name : string) (l : list IndexableFunction) (e : IndexableFunction) :
  first_named name l = Some e -> In e l /\ fn_name e = Some name.
Proof.
  induction l as [|x rest IH]; cbn [first_named]; [discriminate|].
  destruct (fn_name x) as [n|] eqn:En.
  - destruct (String.eqb_spec n name) as [-> | Hn].
    + intros E. injection E as <-. split; [left; reflexivity | assumption].
    + intros E. destruct (IH E). split; [right|]; assumption.
  - intros E. destruct (IH E). split; [right|]; assumption.
Qed.

Lemma first_named_None (name : string) (l : list IndexableFunction) :
  first_named name l = None -> forall e, In e l -> fn_name e <> Some name.
Proof.
  induction l as [|x rest IH]; cbn [first_named]; intros E e Hin; [contradiction|].
  destruct (fn_name x) as [n|] eqn:En.
  - destruct (String.eqb_spec n name) as [-> | Hn]; [discriminate|].
    destruct Hin as [<- | Hin]; [congruence | apply IH; assumption].
  - destruct Hin as [<- | Hin]; [congruence | apply IH; assumption].
Qed.

(** On an array of named entries closed by an entry without a name, the
    [do ... while] loop of [func_needs_index] stays inside the array and
    never compares a [NULL] name; it answers [true] with the first entry
    that carries the name, and [false] when no entry does. *)
Theorem func_needs_index_lookup (name : string) (named table : list IndexableFunction) :
  terminated_table named table ->
  func_needs_index name table = Some (first_named name named)
  /\ (forall e, func_needs_index name table = Some (Some e) ->
        In e named /\ fn_name e = Some name)
  /\ (func_needs_index name table = Some None ->
        forall e, In e named -> fn_name e <> Some name).
Proof.
  intros (Hne & Hall & last & Hlast & ->).
  rewrite (func_needs_index_named name last named Hlast Hne Hall).
  split; [reflexivity|]. split.
  - intros e E. injection E as E. apply first_named_Some, E.
  - intros E. injection E as E. apply first_named_None, E.
Qed.

Lemma funcarr_terminated (tempfamily : TemporalFamily) :
  terminated_table (removelast (funcarr tempfamily)) (funcarr tempfamily).
Proof.
  destruct tempfamily; cbn [funcarr]; unfold terminated_table;
    (split; [discriminate|]);
    (split; [repeat constructor; discriminate|]);
    exists idxfn_end; split; reflexivity.
Qed.

Lemma func_needs_index_lookup_witness :
  func_needs_index "dwithin" TPointIndexableFunctions
  = Some (first_named "dwithin" (removelast TPointIndexableFunctions)).
Proof.
  apply (func_needs_index_lookup "dwithin" (removelast TPointIndexableFunctions)
           TPointIndexableFunctions).
  exact (funcarr_terminated TPOINTTYPE).
Defined.

(** Every named entry of a family's array points at a filled slot of that
    family's strategy array. *)
Lemma funcarr_strategies (tempfamily : TemporalFamily) :
  Forall (fun e =>
            nth_error
              match tempfamily with
              | TEMPORALTYPE => TemporalStrategies
              | TNUMBERTYPE => TNumberStrategies
              | TPOINTTYPE => TPointStrategies
              | TNPOINTTYPE => TNPointStrategies
              end (Z.to_nat (index e)) = Some RTOverlapStrategyNumber)
         (removelast (funcarr tempfamily)).
Proof.
  destruct tempfamily; cbn [funcarr];
    repeat (constructor; [reflexivity|]); constructor.
Qed.

(** The two lookups of [temporal_supportfn_internal] fit together: the
    index of a function found in the array of a family, taken to the
    strategy array of a type of that family, is inside the array and holds
    the overlap strategy, never [InvalidStrategy]. *)
Theorem temporal_get_strategy_of_found `{TypeCatalog}
    (tempfamily : TemporalFamily) (type : Z) (name : string) (e : IndexableFunction) :
  type_of_family tempfamily type ->
  func_needs_index name (funcarr tempfamily) = Some (Some e) ->
  temporal_get_strategy_by_type type (index e) = Some RTOverlapStrategyNumber
  /\ RTOverlapStrategyNumber <> InvalidStrategy.
Proof.
  intros Hty Hfound. split; [|discriminate].
  destruct (funcarr_terminated tempfamily) as (Hne & Hall & last & Hlast & Etab).
  rewrite Etab in Hfound.
  rewrite (func_needs_index_named name last _ Hlast Hne Hall) in Hfound.
  injection Hfound as Hfound. apply first_named_Some in Hfound as [Hin _].
  pose proof (funcarr_strategies tempfamily) as Hs.
  rewrite Forall_forall in Hs. specialize (Hs e Hin).
  unfold temporal_get_strategy_by_type.
  destruct tempfamily; cbn [type_of_family] in Hty.
  - rewrite Hty. exact Hs.
  - destruct Hty as (-> & ->). exact Hs.
  - destruct Hty as (-> & -> & ->). exact Hs.
  - destruct Hty as (-> & -> & -> & ->). rewrite Z.eqb_refl. exact Hs.
Qed.

(** A catalog to run the lookups on: Oids 1 to 4 stand for one type of each
    family. *)
Lemma temporal_get_strategy_of_found_witness :
  @temporal_get_strategy_by_type
    {| talpha_type := Z.eqb 1; tnumber_type := Z.eqb 2; tgeo_type := Z.eqb 3;
       T_TNPOINT_oid := 4 |} 4 DWITHIN_IDX = Some RTOverlapStrategyNumber
  /\ RTOverlapStrategyNumber <> InvalidStrategy.
Proof.
  apply (@temporal_get_strategy_of_found
           {| talpha_type := Z.eqb 1; tnumber_type := Z.eqb 2; tgeo_type := Z.eqb 3;
              T_TNPOINT_oid := 4 |}
           TNPOINTTYPE 4 "dwithin" (idxfn "dwithin" DWITHIN_IDX 3 3)).
  - cbn. repeat split.
  - reflexivity.
Defined.

(** ** The steps of [pg_timestamp_pl_interval], at inputs *)

(** 2000-01-31 plus thirteen months: February 2001, and the 28th. *)
Lemma tm_add_months_calendar_witness :
  let tm := {| tm_sec := 0; tm_min := 0; tm_hour := 0;
               tm_mday := 31; tm_mon := 1; tm_year := 2000 |} in
  let r := tm_add_months tm 13 in
  1 <= tm_mon r <= 12 /\
  tm_year r * 12 + (tm_mon r - 1) = tm_year tm * 12 + (tm_mon tm - 1) + 13 /\
  tm_mday r = Z.min (tm_mday tm) (day_tab (isleap (tm_year r)) (tm_mon r - 1)).
Proof.
  apply (tm_add_months_calendar
           {| tm_sec := 0; tm_min := 0; tm_hour := 0;
              tm_mday := 31; tm_mon := 1; tm_year := 2000 |} 13);
    unfold in_int32, INT32_MIN, INT32_MAX; simpl; lia.
Defined.

Lemma pg_timestamp_pl_interval_in_order_witness :
  @pg_timestamp_pl_interval pg_datetime (29 * USECS_PER_DAY)
    {| time := 1; day := 1; month := 1 |} =
  (t1 <- @pg_timestamp_pl_interval pg_datetime (29 * USECS_PER_DAY)
           {| time := 0; day := 0; month := 1 |} ;;
   t2 <- @pg_timestamp_pl_interval pg_datetime t1 {| time := 0; day := 1; month := 0 |} ;;
   @pg_timestamp_pl_interval pg_datetime t2 {| time := 1; day := 0; month := 0 |}).
Proof.
  apply (@pg_timestamp_pl_interval_in_order pg_datetime (29 * USECS_PER_DAY)
           {| time := 1; day := 1; month := 1 |}).
  - exact PG_tm2timestamp_valid.
  - reflexivity.
Defined.

Lemma pg_interval_cmp_order_witness :
  pg_interval_cmp {| time := 0; day := 29; month := 0 |}
                  {| time := 0; day := 31; month := 0 |} <= 0.
Proof.
  apply (proj2 (proj2 (proj2
           (pg_interval_cmp_order {| time := 0; day := 29; month := 0 |}
                                  {| time := 0; day := 0; month := 1 |}
                                  {| time := 0; day := 31; month := 0 |}))));
    vm_compute; congruence.
Defined.
